(** * TracePulse: the event correlation and hypothesis engine

    A shallow embedding of the analysis core of TracePulse
    ([lib/systemMap.ts], [services/eventProcessor.ts], [services/ai.ts],
    [types/index.ts]) together with the properties of its specification.

    Conventions of the embedding.
    - A JavaScript object used as a dictionary whose entries are iterated
      ([systemMap.services]) is an association list in [Object.entries]
      order; a [Set] that is only tested and extended ([visited]) is a
      [gset]; a [Set] that is converted back to an array ([allDependents],
      [new Set(dependencies)]) is a duplicate-free list in insertion order.
    - JavaScript numbers are integers ([Z]).
    - Recursion and loops whose termination rests on a visited set run on
      fuel; the entry points supply enough fuel and are proved total. *)

From Stdlib Require Import ZArith Lia.
From stdpp Require Import base option list relations sorting strings pretty gmap.

#[local] Set Warnings "-register-all,-clear-no-such-hyp".

(** ** The system map ([types/index.ts]) *)

Record SystemMapService := {
  file : option string;
  functions : option (list string);
  depends_on : option (list string);
  endpoints : option (list string);
  description : option string
}.

Record SystemMap := {
  services : list (string * SystemMapService);
  version : option string;
  updated_at : option string
}.

(** [systemMap.services[name]]. The keys of an object are distinct; on a
    list with a repeated key this is the first entry under it. A name
    inherited from [Object.prototype] yields a value without [depends_on],
    which the callers treat like an absent entry. *)
Fixpoint lookup_service (entries : list (string * SystemMapService))
    (name : string) : option SystemMapService :=
  match entries with
  | [] => None
  | (key, service) :: rest =>
      if decide (key = name) then Some service else lookup_service rest name
  end.


(** ** Insertion-ordered sets ([new Set(array)], [Array.from(set)]) *)

Definition Set_add (x : string) (s : list string) : list string :=
  if decide (x ∈ s) then s else s ++ [x].

(** [new Set(iterable)] adds the elements from left to right. *)
Definition Set_from (l : list string) : list string :=
  foldl (λ s x, Set_add x s) [] l.

(** ** [findServiceDependencies] *)

Section dependencies.
(** The recursive call, one unit of fuel down. *)
Variable recur : string → gset string → option (list string * gset string).

(** [for (const dep of service.depends_on)
      dependencies.push(...findServiceDependencies(dep, systemMap, visited))]
    with the shared [visited] set threaded through the calls. *)
Fixpoint push_transitive (deps dependencies : list string)
    (visited : gset string) : option (list string * gset string) :=
  match deps with
  | [] => Some (dependencies, visited)
  | dep :: rest =>
      match recur dep visited with
      | None => None
      | Some (found, visited') =>
          push_transitive rest (dependencies ++ found) visited'
      end
  end.
End dependencies.

(** The function returns its result and the [visited] set as the call left
    it; [None] is running out of fuel. *)
Fixpoint findServiceDependencies_from (fuel : nat) (systemMap : SystemMap)
    (serviceName : string) (visited : gset string)
    : option (list string * gset string) :=
  match fuel with
  | O => None
  | S fuel' =>
      if decide (serviceName ∈ visited) then Some ([], visited)
      else
        let visited := {[serviceName]} ∪ visited in
        match lookup_service (services systemMap) serviceName with
        | None => Some ([], visited)
        | Some service =>
            match depends_on service with
            | None => Some ([], visited)
            | Some deps =>
                match push_transitive
                        (findServiceDependencies_from fuel' systemMap)
                        deps deps visited with
                | None => None
                | Some (dependencies, visited') =>
                    Some (Set_from dependencies, visited')
                end
            end
        end
  end.

(** The call with the default [visited = new Set()]. *)
Definition findServiceDependencies (serviceName : string)
    (systemMap : SystemMap) : option (list string) :=
  fst <$> findServiceDependencies_from (S (length (services systemMap)))
            systemMap serviceName ∅.

(** ** [findDependents] *)

(** [service.depends_on?.includes(serviceName)] *)
Definition includes_dep (service : SystemMapService) (serviceName : string)
    : bool :=
  match depends_on service with
  | None => false
  | Some deps => bool_decide (serviceName ∈ deps)
  end.

Fixpoint findDependents_entries (serviceName : string)
    (entries : list (string * SystemMapService)) : list string :=
  match entries with
  | [] => []
  | (name, service) :: rest =>
      if includes_dep service serviceName
      then name :: findDependents_entries serviceName rest
      else findDependents_entries serviceName rest
  end.

Definition findDependents (serviceName : string) (systemMap : SystemMap)
    : list string :=
  findDependents_entries serviceName (services systemMap).

(** ** [analyzeImpact] *)

Record Impact := {
  directDependents : list string;
  allDependents : list string;
  dependencies : list string
}.

(** The body of [for (const dep of deps)]: a dependent not seen before is
    added to the set and to the back of the queue. *)
Definition discover (state : list string * list string) (dep : string)
    : list string * list string :=
  let '(allDependents, queue) := state in
  if decide (dep ∈ allDependents) then (allDependents, queue)
  else (allDependents ++ [dep], queue ++ [dep]).

(** [while (queue.length > 0)]; [None] is running out of fuel. *)
Fixpoint expand_dependents (fuel : nat) (systemMap : SystemMap)
    (allDependents queue : list string) : option (list string) :=
  match queue with
  | [] => Some allDependents
  | current :: queue =>
      match fuel with
      | O => None
      | S fuel' =>
          let deps := findDependents current systemMap in
          let '(allDependents, queue) :=
            foldl discover (allDependents, queue) deps in
          expand_dependents fuel' systemMap allDependents queue
      end
  end.

Definition analyzeImpact (affectedService : string) (systemMap : SystemMap)
    : option Impact :=
  let directDependents := findDependents affectedService systemMap in
  dependencies ← findServiceDependencies affectedService systemMap;
  allDependents ← expand_dependents (S (length (services systemMap)))
                    systemMap (Set_from directDependents) directDependents;
  Some {| directDependents := directDependents;
          allDependents := allDependents;
          dependencies := dependencies |}.

(** ** JSON values

    What [JSON.parse] returns, and what flows untyped ([any]) through the
    hypothesis parser. [undefined] is [None] of [option json]. *)

Inductive json :=
| JNull
| JBool (b : bool)
| JNum (n : Z)
| JStr (s : string)
| JArr (items : list json)
| JObj (fields : list (string * json)).

Definition undefinable := option json.

(** Truthiness, as tested by [||]. *)
Definition truthy (j : json) : bool :=
  match j with
  | JNull => false
  | JBool b => b
  | JNum n => negb (n =? 0)%Z
  | JStr s => negb (bool_decide (s = ""))
  | JArr _ | JObj _ => true
  end.

(** [value || fallback] *)
Definition or_json (value : undefinable) (fallback : json) : json :=
  match value with
  | Some j => if truthy j then j else fallback
  | None => fallback
  end.

(** [value || fallback] on an optional string. *)
Definition or_string (value : option string) (fallback : string) : string :=
  match value with
  | Some s => if bool_decide (s = "") then fallback else s
  | None => fallback
  end.

(** [object[key]] on a parsed object, whose keys are distinct. *)
Fixpoint lookup_field (fields : list (string * json)) (key : string)
    : undefinable :=
  match fields with
  | [] => None
  | (k, v) :: rest => if decide (k = key) then Some v else lookup_field rest key
  end.

(** Template-literal conversion [`${value}`] of a JSON value. *)
Fixpoint ToString (j : json) : string :=
  match j with
  | JNull => "null"
  | JBool true => "true"
  | JBool false => "false"
  | JNum n => pretty n
  | JStr s => s
  | JArr items =>
      String.concat ","
        (map (λ item, match item with JNull => "" | _ => ToString item end)
             items)
  | JObj _ => "[object Object]"
  end.

(** ** Abrupt completion: the [try]/[catch] of the parser *)

Inductive completion (A : Type) :=
| Normal (a : A)
| Throw.
Arguments Normal {A} a.
Arguments Throw {A}.

Definition and_then {A B} (c : completion A) (k : A → completion B)
    : completion B :=
  match c with
  | Normal a => k a
  | Throw => Throw
  end.

Notation "'try!' x := c 'in' k" := (and_then c (λ x, k))
  (at level 10, x name, c at level 100, k at level 200).

(** [value.key]: a [TypeError] on [null]; [undefined] on a primitive or an
    array (none of the keys read by the parser is a built-in property). *)
Definition prop (value : json) (key : string) : completion undefinable :=
  match value with
  | JNull => Throw
  | JObj fields => Normal (lookup_field fields key)
  | _ => Normal None
  end.

Section array_map.
Context {B : Type} (callback : json → nat → completion B).

Fixpoint map_from (index : nat) (items : list json) : completion (list B) :=
  match items with
  | [] => Normal []
  | item :: rest =>
      try! b := callback item index in
      try! bs := map_from (S index) rest in
      Normal (b :: bs)
  end.

(** [(value || []).map(callback)]: a truthy value that is not an array
    has no [map] method, and calling it throws. *)
Definition or_empty_map (value : undefinable) : completion (list B) :=
  match or_json value (JArr []) with
  | JArr items => map_from 0 items
  | _ => Throw
  end.
End array_map.

(** ** Analysis types ([types/index.ts]) *)

Record HypothesisEvidence := {
  evidence_type : json;
  evidence_source : json;
  evidence_detail : json;
  evidence_confidence : json
}.

(** The interface [Hypothesis]; the name is a reserved word here. *)
Record Hypothesis_t := {
  hyp_id : string;
  hyp_title : json;
  hyp_description : json;
  hyp_confidence : json;
  hyp_evidence : list HypothesisEvidence;
  hyp_suggestedActions : json;
  hyp_relatedServices : json
}.

(** A reference to an array of hypotheses on the heap. *)
Definition ref := nat.

Record AnalysisReport := {
  report_correlationId : string;
  report_eventType : string;
  report_timestamp : string;
  report_hypotheses : ref;
  report_affectedServices : list string;
  report_summary : string
}.

(** ** Webhook events ([types/index.ts]) *)

Inductive Level := debug | info | warn | error | critical.
Inductive Priority := low | medium | high.

Global Instance Level_eq_dec : EqDecision Level.
Proof. solve_decision. Defined.
Global Instance Priority_eq_dec : EqDecision Priority.
Proof. solve_decision. Defined.

Record Metadata := {
  errorCode : option string;
  userId : option string;
  sessionId : option string;
  edgeDevice : option string;
  passthrough : list (string * json)
}.

Record WebhookEvent := {
  eventType : string;
  correlationId : option string;
  service : option string;
  level : option Level;
  priority : option Priority;
  timestamp : option string;
  details : list (string * json);
  metadata : option Metadata
}.

(** ** The hypothesis parser of [generateHypotheses] *)

(** The callback of [(h.evidence || []).map((e) => ...)]. *)
Definition parse_evidence (e : json) (index : nat)
    : completion HypothesisEvidence :=
  try! type := prop e "type" in
  try! source := prop e "source" in
  try! detail := prop e "detail" in
  try! confidence := prop e "confidence" in
  Normal {| evidence_type := or_json type (JStr "log");
            evidence_source := or_json source (JStr "unknown");
            evidence_detail := or_json detail (JStr "");
            evidence_confidence := or_json confidence (JNum 50) |}.

(** [`hyp-${Date.now()}-${index}`] *)
Definition hypothesis_id (now : Z) (index : nat) : string :=
  "hyp-" +:+ pretty now +:+ "-" +:+ pretty index.

(** The callback of [hypotheses.map((h, index) => ...)]. *)
Definition parse_hypothesis (now : Z) (h : json) (index : nat)
    : completion Hypothesis_t :=
  try! title := prop h "title" in
  try! description := prop h "description" in
  try! confidence := prop h "confidence" in
  try! evidence := prop h "evidence" in
  try! evidence := or_empty_map parse_evidence evidence in
  try! suggestedActions := prop h "suggestedActions" in
  try! relatedServices := prop h "relatedServices" in
  Normal {| hyp_id := hypothesis_id now index;
            hyp_title := or_json title (JStr "Unknown Issue");
            hyp_description := or_json description (JStr "");
            hyp_confidence := or_json confidence (JNum 50);
            hyp_evidence := evidence;
            hyp_suggestedActions := or_json suggestedActions (JArr []);
            hyp_relatedServices := or_json relatedServices (JArr []) |}.

(** [const hypotheses = result.hypotheses || []; return hypotheses.map(...)] *)
Definition parse_hypotheses (now : Z) (result : json)
    : completion (list Hypothesis_t) :=
  try! hypotheses := prop result "hypotheses" in
  or_empty_map (parse_hypothesis now) hypotheses.

(** What the external call leaves in [response.choices[0].message.content]. *)
Inductive message_content :=
| NoContent                 (* null, undefined or the empty string *)
| NotJSON                   (* a text on which JSON.parse throws *)
| JSONText (result : json). (* a text that JSON.parse reads as [result] *)

(** The outcome of the external generator call: it raises (no API key,
    network failure, timeout, a reply without [choices[0].message]) or it
    replies. *)
Inductive generator_outcome :=
| Raises
| Replies (content : message_content).

(** [JSON.parse(content || '{}')] *)
Definition JSON_parse_content (content : message_content) : completion json :=
  match content with
  | NoContent => Normal (JObj [])
  | NotJSON => Throw
  | JSONText result => Normal result
  end.

(** The [try] block of [generateHypotheses]. *)
Definition generate_attempt (now : Z) (outcome : generator_outcome)
    : completion (list Hypothesis_t) :=
  match outcome with
  | Raises => Throw
  | Replies content =>
      try! result := JSON_parse_content content in
      parse_hypotheses now result
  end.

Definition getFallbackHypotheses (now : Z) : list Hypothesis_t :=
  [ {| hyp_id := hypothesis_id now 0;
       hyp_title := JStr "Service Dependency Failure";
       hyp_description :=
         JStr "The failure appears to be related to a service dependency issue based on the error pattern.";
       hyp_confidence := JNum 60;
       hyp_evidence :=
         [ {| evidence_type := JStr "log";
              evidence_source := JStr "Event Analysis";
              evidence_detail :=
                JStr "Critical error detected in service communication";
              evidence_confidence := JNum 70 |} ];
       hyp_suggestedActions :=
         JArr [ JStr "Check service health endpoints";
                JStr "Review recent deployments";
                JStr "Examine service logs for connection errors" ];
       hyp_relatedServices := JArr [] |} ].

(** ** [Array.prototype.sort] with [(a, b) => b.confidence - a.confidence] *)

Section sort.
(** The runtime's conversion of a string to a number; [None] is [NaN]. *)
Variable StringToNumber : string → option Z.

Definition ToNumber (j : json) : option Z :=
  match j with
  | JNull => Some 0%Z
  | JBool true => Some 1%Z
  | JBool false => Some 0%Z
  | JNum n => Some n
  | JStr s => StringToNumber s
  | JArr _ => StringToNumber (ToString j)
  | JObj _ => None
  end.

(** [b.confidence - a.confidence]; a [NaN] result counts as [+0]. *)
Definition by_confidence_desc (a b : Hypothesis_t) : Z :=
  match ToNumber (hyp_confidence b), ToNumber (hyp_confidence a) with
  | Some nb, Some na => (nb - na)%Z
  | _, _ => 0%Z
  end.

Variable compareFn : Hypothesis_t → Hypothesis_t → Z.

(** The sort is stable: an element goes in front of the first element
    that it does not have to follow. For a consistent comparator every
    stable sort returns this array. *)
Fixpoint sort_insert (x : Hypothesis_t) (sorted : list Hypothesis_t)
    : list Hypothesis_t :=
  match sorted with
  | [] => [x]
  | y :: rest =>
      if (0 <? compareFn x y)%Z then y :: sort_insert x rest
      else x :: y :: rest
  end.

Fixpoint Array_sort (array : list Hypothesis_t) : list Hypothesis_t :=
  match array with
  | [] => []
  | x :: rest => sort_insert x (Array_sort rest)
  end.
End sort.

(** ** The analysis pipeline ([services/ai.ts], [services/eventProcessor.ts]) *)

Record AnalysisContext := {
  relatedEvents : list WebhookEvent;
  systemMap : SystemMap;
  environment : option string;
  recentDiffs : option (list string)
}.

(** The values that the prompt template of [buildSystemContext]
    interpolates, in the order of the template. *)
Record SystemContext := {
  context_primaryEvent : string;
  context_service : string;
  context_errorCode : string;
  context_timestamp : option string;
  context_environment : string;
  context_details : list (string * json);
  context_relatedEvents :
    list (option string * string * option string * option Level);
  context_dependencies : string;
  context_directDependents : string;
  context_cascadeImpact : string;
  context_recentChanges : string
}.

Definition newline : string := String (Ascii.ascii_of_nat 10) "".

Definition buildSystemContext (event : WebhookEvent)
    (context : AnalysisContext) (impact : Impact)
    (recentDiffs : list string) : SystemContext :=
  {| context_primaryEvent := eventType event;
     context_service := or_string (service event) "Unknown";
     context_errorCode :=
       or_string (metadata event ≫= errorCode) "N/A";
     context_timestamp := timestamp event;
     context_environment := or_string (environment context) "Unknown";
     context_details := details event;
     context_relatedEvents :=
       map (λ e, (timestamp e, eventType e, service e, level e))
           (relatedEvents context);
     context_dependencies :=
       or_string (Some (String.concat ", " (dependencies impact))) "None";
     context_directDependents :=
       or_string (Some (String.concat ", " (directDependents impact))) "None";
     context_cascadeImpact :=
       or_string (Some (String.concat ", " (allDependents impact))) "None";
     context_recentChanges :=
       match recentDiffs with
       | [] => "No recent changes detected"
       | _ => String.concat (newline +:+ "---" +:+ newline) recentDiffs
       end |}.

(** What the engine takes from its surroundings: the clock, the cached
    system map, the recent-change fetcher, the hypothesis generator and the
    runtime's string-to-number conversion. The collaborators catch their
    own errors ([getSystemMap], [getRecentDiffs]) and always return. *)
Record World := {
  now : Z;
  now_iso : string;
  currentSystemMap : SystemMap;
  getRecentDiffs : string → list string;
  generator : SystemContext → generator_outcome;
  StringToNumber : string → option Z
}.

(** Calls and log lines, in the order in which they happen. *)
Inductive Effect :=
| Log (severity : Level) (event : string)
| Call_getSystemMap
| Call_analyzeImpact (affectedService : string)
| Call_getRecentDiffs (serviceName : string)
| Call_generator (context : SystemContext).

(** Arrays of hypotheses live on a heap: the report holds a reference to
    the array that [generateSummary] sorts in place. *)
Record State := {
  heap : gmap ref (list Hypothesis_t);
  trace : list Effect
}.

Definition M (A : Type) : Type := State → option (A * State).

Definition ret {A} (a : A) : M A := λ st, Some (a, st).

Definition bind {A B} (m : M A) (k : A → M B) : M B :=
  λ st, match m st with
        | Some (a, st') => k a st'
        | None => None
        end.

Notation "'do!' x := m 'in' k" := (bind m (λ x, k))
  (at level 10, x name, m at level 100, k at level 200).

Definition emit (e : Effect) : M unit :=
  λ st, Some (tt, {| heap := heap st; trace := trace st ++ [e] |}).

Definition alloc (array : list Hypothesis_t) : M ref :=
  λ st, let r := fresh (dom (heap st)) in
        Some (r, {| heap := <[r := array]> (heap st); trace := trace st |}).

Definition read (r : ref) : M (list Hypothesis_t) :=
  λ st, Some (default [] (heap st !! r), st).

Definition write (r : ref) (array : list Hypothesis_t) : M unit :=
  λ st, Some (tt, {| heap := <[r := array]> (heap st); trace := trace st |}).

(** A computation on fuel: [None] is a loop that did not finish. *)
Definition terminates {A} (result : option A) : M A :=
  λ st, match result with
        | Some a => Some (a, st)
        | None => None
        end.

(** The hypotheses of a report, read through its reference. *)
Definition hypotheses_of (st : State) (report : AnalysisReport)
    : list Hypothesis_t :=
  default [] (heap st !! report_hypotheses report).

Definition generateHypotheses (world : World) (context : SystemContext)
    : M ref :=
  do! _ := emit (Call_generator context) in
  match generate_attempt (now world) (generator world context) with
  | Normal hypotheses => alloc hypotheses
  | Throw =>
      do! _ := emit (Log error "AI_HYPOTHESIS_GENERATION_ERROR") in
      alloc (getFallbackHypotheses (now world))
  end.

(** [hypotheses.sort(...)] sorts the array behind the reference. *)
Definition generateSummary (world : World) (event : WebhookEvent)
    (hypotheses : ref) : M string :=
  do! array := read hypotheses in
  let sorted :=
    Array_sort (by_confidence_desc (StringToNumber world)) array in
  do! _ := write hypotheses sorted in
  let topHypothesis := head sorted in
  ret ("Critical " +:+ eventType event +:+ " event detected in "
       +:+ or_string (service event) "unknown service" +:+ ". "
       +:+ "Most likely cause: "
       +:+ ToString (or_json (hyp_title <$> topHypothesis) (JStr "Unknown"))
       +:+ " ("
       +:+ ToString (or_json (hyp_confidence <$> topHypothesis) (JNum 0))
       +:+ "% confidence). "
       +:+ pretty (length sorted)
       +:+ " hypotheses generated for investigation.").

(** [event.details.service], read as the string that [analyzeImpact]
    declares for its parameter; an entry of another type is outside that
    type and is read as absent. *)
Definition details_service (event : WebhookEvent) : option string :=
  match lookup_field (details event) "service" with
  | Some (JStr s) => Some s
  | _ => None
  end.

(** [event.service || event.details.service || 'Unknown'] *)
Definition affectedService_of (event : WebhookEvent) : string :=
  or_string (service event) (or_string (details_service event) "Unknown").

(** Nothing in the [try] block throws, so the [catch] that returns [null]
    is never entered; the result is kept optional as in the source. *)
Definition analyzeEvent (world : World) (event : WebhookEvent)
    (context : AnalysisContext) : M (option AnalysisReport) :=
  do! _ := emit (Log info "AI_ANALYSIS_START") in
  let affectedService := affectedService_of event in
  do! _ := emit (Call_analyzeImpact affectedService) in
  do! impact := terminates (analyzeImpact affectedService (systemMap context)) in
  do! _ := emit (Call_getRecentDiffs affectedService) in
  let recentDiffs := getRecentDiffs world affectedService in
  let systemContext := buildSystemContext event context impact recentDiffs in
  do! hypotheses := generateHypotheses world systemContext in
  do! summary := generateSummary world event hypotheses in
  let report :=
    {| report_correlationId := or_string (correlationId event) "unknown";
       report_eventType := eventType event;
       report_timestamp := now_iso world;
       report_hypotheses := hypotheses;
       report_affectedServices := affectedService :: allDependents impact;
       report_summary := summary |} in
  do! _ := emit (Log info "AI_ANALYSIS_COMPLETE") in
  ret (Some report).

(** The filter of [processCorrelatedEvents]. *)
Definition isCritical (e : WebhookEvent) : bool :=
  bool_decide (priority e = Some high)
  || bool_decide (level e = Some error)
  || bool_decide (level e = Some critical).

(** The function returns the report that the source logs under
    [REPORT_GENERATED]. *)
Definition processCorrelatedEvents (world : World) (correlationId : string)
    (events : list WebhookEvent) (environment : option string)
    : M (option AnalysisReport) :=
  let criticalEvents := List.filter isCritical events in
  match criticalEvents with
  | [] =>
      do! _ := emit (Log info "NO_CRITICAL_EVENTS") in
      ret None
  | first :: _ =>
      do! _ := emit (Log info "ANALYZING_CRITICAL_EVENTS") in
      do! _ := emit Call_getSystemMap in
      do! report :=
        analyzeEvent world first
          {| relatedEvents := events;
             systemMap := currentSystemMap world;
             environment := environment;
             recentDiffs := None |} in
      match report with
      | Some report =>
          do! _ := emit (Log info "REPORT_GENERATED") in
          ret (Some report)
      | None => ret None
      end
  end.

(** [event.correlationId || 'uncorrelated'] *)
Definition correlationKey (event : WebhookEvent) : string :=
  or_string (correlationId event) "uncorrelated".

(** [correlatedEvents.get(key)!.push(event)], after the group has been
    created at the end of the map if the key was new. *)
Fixpoint Map_push (key : string) (event : WebhookEvent)
    (groups : list (string * list WebhookEvent))
    : list (string * list WebhookEvent) :=
  match groups with
  | [] => [(key, [event])]
  | (k, group) :: rest =>
      if decide (k = key) then (k, group ++ [event]) :: rest
      else (k, group) :: Map_push key event rest
  end.

Definition groupEvents (events : list WebhookEvent)
    : list (string * list WebhookEvent) :=
  foldl (λ groups event, Map_push (correlationKey event) event groups)
        [] events.

Fixpoint processGroups (world : World)
    (groups : list (string * list WebhookEvent)) (environment : option string)
    : M (list (string * option AnalysisReport)) :=
  match groups with
  | [] => ret []
  | (correlationId, groupedEvents) :: rest =>
      do! report :=
        processCorrelatedEvents world correlationId groupedEvents
          environment in
      do! reports := processGroups world rest environment in
      ret ((correlationId, report) :: reports)
  end.

Definition processEvents (world : World) (events : list WebhookEvent)
    (environment : option string)
    : M (list (string * option AnalysisReport)) :=
  do! _ := emit (Log info "EVENT_PROCESSING_START") in
  processGroups world (groupEvents events) environment.

Definition initial : State := {| heap := ∅; trace := [] |}.

(** ** Vocabulary of the properties *)

(** [x] lists [y] in its [depends_on]. *)
Definition depends_directly (systemMap : SystemMap) (x y : string) : Prop :=
  ∃ service deps,
    (x, service) ∈ services systemMap
    ∧ depends_on service = Some deps ∧ y ∈ deps.

(** [x] reaches [y] along one or more [depends_on] edges. *)
Definition depends_transitively (systemMap : SystemMap) : relation string :=
  tc (depends_directly systemMap).

(** [name] is a key of [systemMap.services]. *)
Definition declared (systemMap : SystemMap) (name : string) : Prop :=
  name ∈ (services systemMap).*1.

(** The declared services that the traversal has not entered yet. *)
Definition unvisited (systemMap : SystemMap) (visited : gset string)
    : gset string :=
  list_to_set (services systemMap).*1 ∖ visited.

(** The entries whose name the closure has not reached yet: every round of
    the search takes one name off the queue, and a name is put on the queue
    only when it leaves these entries. *)
Definition unseen (entries : list (string * SystemMapService))
    (allDependents : list string) : nat :=
  length (filter (λ entry, entry.1 ∉ allDependents) entries).

(** The list that [generateHypotheses] puts on the heap. *)
Definition hypotheses_generated (now : Z) (outcome : generator_outcome)
    : list Hypothesis_t :=
  match generate_attempt now outcome with
  | Normal hypotheses => hypotheses
  | Throw => getFallbackHypotheses now
  end.

(** The context that [processCorrelatedEvents] hands to [analyzeEvent]. *)
Definition group_context (world : World) (events : list WebhookEvent)
    (environment : option string) : AnalysisContext :=
  {| relatedEvents := events;
     systemMap := currentSystemMap world;
     environment := environment;
     recentDiffs := None |}.

(** What the generator answers to the prompt built for [event]. *)
Definition call_outcome (world : World) (event : WebhookEvent)
    (context : AnalysisContext) : option generator_outcome :=
  impact ← analyzeImpact (affectedService_of event) (systemMap context);
  Some (generator world
          (buildSystemContext event context impact
             (getRecentDiffs world (affectedService_of event)))).

(** The generator call fails: it raises (or times out), or its reply
    cannot be parsed into hypotheses. *)
Inductive generator_fails (now : Z) : generator_outcome → Prop :=
| call_raises : generator_fails now Raises
| reply_not_JSON : generator_fails now (Replies NotJSON)
| reply_malformed result :
    parse_hypotheses now result = Throw →
    generator_fails now (Replies (JSONText result)).


(** The confidence of [h] as a number, where it has one. *)
Definition confidence_of (toNumber : string → option Z) (h : Hypothesis_t)
    : option Z :=
  ToNumber toNumber (hyp_confidence h).

(** The confidence of [h] is not [NaN]. *)
Definition numeric (toNumber : string → option Z) (h : Hypothesis_t) : Prop :=
  is_Some (confidence_of toNumber h).



(** The hypotheses of a run that produced a report. *)
Definition reported_hypotheses (run : option (option AnalysisReport * State))
    : option (list Hypothesis_t) :=
  match run with
  | Some (Some report, st) => Some (hypotheses_of st report)
  | _ => None
  end.

(** The affected services of a run that produced a report. *)
Definition reported_services (run : option (option AnalysisReport * State))
    : option (list string) :=
  match run with
  | Some (Some report, _) => Some (report_affectedServices report)
  | _ => None
  end.

(** [value] is [undefined] or not truthy. *)
Definition falsy (value : undefinable) : Prop :=
  match value with
  | Some j => truthy j = false
  | None => True
  end.

(** ** Sample inputs *)

Definition event_in (serviceName : string) (l : Level) (p : Priority)
    : WebhookEvent :=
  {| eventType := "SESSION_DROP";
     correlationId := None;
     service := Some serviceName;
     level := Some l;
     priority := Some p;
     timestamp := None;
     details := [];
     metadata := None |}.

Definition world_with (map : SystemMap) (outcome : generator_outcome)
    : World :=
  {| now := 1700000000000;
     now_iso := "2023-11-14T22:13:20.000Z";
     currentSystemMap := map;
     getRecentDiffs := λ _, [];
     generator := λ _, outcome;
     StringToNumber := λ _, None |}.

Definition hypothesis_json (title : string) (confidence : Z) : json :=
  JObj [("title", JStr title); ("confidence", JNum confidence)].

Definition reply_of (hypotheses : list json) : generator_outcome :=
  Replies (JSONText (JObj [("hypotheses", JArr hypotheses)])).

Definition service_on (deps : list string) : SystemMapService :=
  {| file := None; functions := None; depends_on := Some deps;
     endpoints := None; description := None |}.

Definition bare_service : SystemMapService :=
  {| file := None; functions := None; depends_on := None;
     endpoints := None; description := None |}.

Definition graph_of (entries : list (string * SystemMapService)) : SystemMap :=
  {| services := entries; version := None; updated_at := None |}.

Definition cyclic_pair (a b : string) : SystemMap :=
  graph_of [(a, service_on [b]); (b, service_on [a])].

Definition chain_ABC : SystemMap :=
  graph_of [("A", service_on ["B"]); ("B", service_on ["C"]);
            ("C", bare_service)].

Definition self_loop : SystemMap := graph_of [("A", service_on ["A"])].

Definition ranking_reply : generator_outcome :=
  reply_of [hypothesis_json "Cache miss storm" 40;
            hypothesis_json "Pool exhausted" 80;
            hypothesis_json "Bad deploy" 0;
            hypothesis_json "Slow upstream" 80;
            JObj [("title", JStr "Clock skew")]].

(** ** Vocabulary of the further properties *)

(** [x] lists [y] in the [depends_on] of the entry [systemMap.services[x]]. *)
Definition lists_dependency (systemMap : SystemMap) (x y : string) : Prop :=
  ∃ service deps,
    lookup_service (services systemMap) x = Some service
    ∧ depends_on service = Some deps ∧ y ∈ deps.

(** A chain of such edges from [n] to [y] none of whose inner nodes is in
    [visited]. *)
Inductive avoiding (systemMap : SystemMap) (visited : gset string)
    : string → string → Prop :=
| avoiding_edge n y :
    lists_dependency systemMap n y → avoiding systemMap visited n y
| avoiding_step n m y :
    lists_dependency systemMap n m → m ∉ visited →
    avoiding systemMap visited m y → avoiding systemMap visited n y.

(** The keys of [systemMap.services] are distinct, as in every object. *)
Definition distinct_keys (systemMap : SystemMap) : Prop :=
  NoDup (services systemMap).*1.

(** The invariant of the search for dependents: a name in the closure is
    still queued, or all the nodes that list it are in the closure. *)
Definition closed_up_to (systemMap : SystemMap)
    (allDependents queue : list string) : Prop :=
  ∀ y, y ∈ allDependents →
       y ∈ queue ∨ ∀ x, depends_directly systemMap x y → x ∈ allDependents.

(** [key] is the correlation key of [e]. *)
Definition same_key (key : string) (e : WebhookEvent) : bool :=
  bool_decide (correlationKey e = key).








(** The events of the batch with correlation key [key], in arrival order. *)
Definition events_with_key (events : list WebhookEvent) (key : string)
    : string * list WebhookEvent :=
  (key, List.filter (same_key key) events).


Definition is_null (j : json) : bool :=
  match j with
  | JNull => true
  | _ => false
  end.

(** The [evidence] of a hypothesis can be mapped: it is absent, falsy, or
    an array without [null] entries. *)
Definition evidence_usable (value : undefinable) : bool :=
  match or_json value (JArr []) with
  | JArr items => forallb (λ e, negb (is_null e)) items
  | _ => false
  end.

(** An entry of the reply's list of hypotheses that the parser can read:
    anything but [null], provided that its [evidence] can be mapped. *)
Definition hypothesis_usable (h : json) : bool :=
  match h with
  | JNull => false
  | JObj fields => evidence_usable (lookup_field fields "evidence")
  | _ => true
  end.

(** ** The sample reply of the parser properties *)

Definition two_entry_result : json :=
  JObj [("hypotheses",
         JArr [hypothesis_json "Pool exhausted" 80; JObj []])].

Definition two_entry_parsed : list Hypothesis_t :=
  [ {| hyp_id := "hyp-1700000000000-0";
       hyp_title := JStr "Pool exhausted";
       hyp_description := JStr "";
       hyp_confidence := JNum 80;
       hyp_evidence := [];
       hyp_suggestedActions := JArr [];
       hyp_relatedServices := JArr [] |};
    {| hyp_id := "hyp-1700000000000-1";
       hyp_title := JStr "Unknown Issue";
       hyp_description := JStr "";
       hyp_confidence := JNum 50;
       hyp_evidence := [];
       hyp_suggestedActions := JArr [];
       hyp_relatedServices := JArr [] |} ].

(** ** The API-key check ([lib/auth.ts]) *)

(** The environment variables that the check reads. *)
Record ServerEnv := {
  INTERNAL_API_KEY : option string;
  EXTERNAL_API_KEY : option string
}.

(** [process.env.INTERNAL_API_KEY || 'internal-dev-key'] *)
Definition internal_key (env : ServerEnv) : string :=
  or_string (INTERNAL_API_KEY env) "internal-dev-key".

(** [process.env.EXTERNAL_API_KEY || 'dev-api-key'] *)
Definition external_key (env : ServerEnv) : string :=
  or_string (EXTERNAL_API_KEY env) "dev-api-key".

(** The middleware answers itself, or sets [apiKey] and [isInternal] on
    the context and calls [next]. *)
Inductive AuthResult :=
| Denied (status : nat) (error : string) (logged : string)
| Next (apiKey : string) (isInternal : bool).

(** The argument is the header [X-API-Key]. *)
Definition authMiddleware (env : ServerEnv) (header : option string)
    : AuthResult :=
  match header with
  | None => Denied 401 "Missing API key" "AUTH_MISSING_API_KEY"
  | Some apiKey =>
      if bool_decide (apiKey = "")
      then Denied 401 "Missing API key" "AUTH_MISSING_API_KEY"
      else
        let validApiKeys := [internal_key env; external_key env] in
        if bool_decide (apiKey ∈ validApiKeys)
        then Next apiKey (bool_decide (apiKey = internal_key env))
        else Denied 401 "Invalid API key" "AUTH_INVALID_API_KEY"
  end.

(** ** The DebugQueue library ([packages/debug-queue/src]) *)

(** [LogEvent] has the fields of [WebhookEvent]. *)
Definition LogEvent : Type := WebhookEvent.

Record LogOptions := {
  options_correlationId : option string;
  options_priority : option Priority;
  options_level : option Level
}.

(** [`${Date.now()}-${Math.random().toString(36).substr(2, 9)}`]; the
    random digits are an input. *)
Definition generateCorrelationId (now : Z) (random : string) : string :=
  pretty now +:+ "-" +:+ random.

(** The event that [DebugQueue.log] hands to [client.send]. *)
Definition DebugQueue_log (now : Z) (random : string) (type : string)
    (fields : list (string * json)) (options : LogOptions) : LogEvent :=
  {| eventType := type;
     details := fields;
     correlationId :=
       Some (or_string (options_correlationId options)
               (generateCorrelationId now random));
     level := Some (default info (options_level options));
     priority := Some (default medium (options_priority options));
     service := None;
     timestamp := None;
     metadata := None |}.

(** The second argument of [DebugQueue.error]: an [Error] or a string. *)
Inductive ErrorArgument :=
| ErrorObject (message : string) (stack : option string) (name : string)
| ErrorText (text : string).

(** [error instanceof Error ? { message, stack, name } : error], as it is
    serialized (an undefined [stack] leaves no key). *)
Definition error_detail (err : ErrorArgument) : json :=
  match err with
  | ErrorObject message stack name =>
      JObj ([("message", JStr message)]
            ++ match stack with
               | Some s => [("stack", JStr s)]
               | None => []
               end
            ++ [("name", JStr name)])
  | ErrorText text => JStr text
  end.

(** [{ ...fields, key: value }] *)
Fixpoint set_field (key : string) (value : json)
    (fields : list (string * json)) : list (string * json) :=
  match fields with
  | [] => [(key, value)]
  | (k, v) :: rest =>
      if decide (k = key) then (k, value) :: rest
      else (k, v) :: set_field key value rest
  end.

Definition DebugQueue_error (now : Z) (random : string) (type : string)
    (err : ErrorArgument) (fields : list (string * json))
    (options : LogOptions) : LogEvent :=
  DebugQueue_log now random type (set_field "error" (error_detail err) fields)
    {| options_correlationId := options_correlationId options;
       options_level := Some error;
       options_priority := Some (default high (options_priority options)) |}.

Definition DebugQueue_warn (now : Z) (random : string) (type : string)
    (fields : list (string * json)) (options : LogOptions) : LogEvent :=
  DebugQueue_log now random type fields
    {| options_correlationId := options_correlationId options;
       options_level := Some warn;
       options_priority := options_priority options |}.

Definition DebugQueue_info (now : Z) (random : string) (type : string)
    (fields : list (string * json)) (options : LogOptions) : LogEvent :=
  DebugQueue_log now random type fields
    {| options_correlationId := options_correlationId options;
       options_level := Some info;
       options_priority := options_priority options |}.

Definition DebugQueue_critical (now : Z) (random : string) (type : string)
    (fields : list (string * json)) (options : LogOptions) : LogEvent :=
  DebugQueue_log now random type fields
    {| options_correlationId := options_correlationId options;
       options_level := Some critical;
       options_priority := Some high |}.

(** The configuration given to the client and the environment variables
    that complete it. *)
Record DebugQueueConfig := {
  config_endpoint : option string;
  config_apiKey : option string;
  config_service : option string;
  config_environment : option string;
  config_batchSize : option Z;
  config_flushInterval : option Z;
  config_enabled : option bool
}.

Record ClientEnv := {
  TRACEPULSE_ENDPOINT : option string;
  TRACEPULSE_API_KEY : option string;
  SERVICE_NAME : option string;
  NODE_ENV : option string
}.

(** [Required<DebugQueueConfig>] *)
Record ClientConfig := {
  endpoint : string;
  apiKey : string;
  client_service : string;
  client_environment : string;
  batchSize : Z;
  flushInterval : Z;
  enabled : bool
}.

(** [number || fallback] *)
Definition or_number (value : option Z) (fallback : Z) : Z :=
  match value with
  | Some n => if (n =? 0)%Z then fallback else n
  | None => fallback
  end.

(** The configuration that the constructor of [DebugQueueClient] stores. *)
Definition resolve_config (config : DebugQueueConfig) (env : ClientEnv)
    : ClientConfig :=
  {| endpoint :=
       or_string (config_endpoint config)
         (or_string (TRACEPULSE_ENDPOINT env)
            "http://localhost:3000/webhook/event");
     apiKey :=
       or_string (config_apiKey config)
         (or_string (TRACEPULSE_API_KEY env) "");
     client_service :=
       or_string (config_service config)
         (or_string (SERVICE_NAME env) "unknown");
     client_environment :=
       or_string (config_environment config)
         (or_string (NODE_ENV env) "development");
     batchSize := or_number (config_batchSize config) 10;
     flushInterval := or_number (config_flushInterval config) 5000;
     enabled :=
       match config_enabled config with
       | Some b => b
       | None => negb (bool_decide (NODE_ENV env = Some "test"))
       end |}.

(** [this.config.enabled && this.config.flushInterval > 0] *)
Definition timer_started (c : ClientConfig) : bool :=
  enabled c && (0 <? flushInterval c)%Z.

(** What [fetch] does with a POST. *)
Inductive PostOutcome := PostOk | PostNotOk | PostThrows.

(** The request of [flush]: the endpoint, the header [X-API-Key] and the
    body [{ events, environment }]. *)
Record PostRequest := {
  request_endpoint : string;
  request_apiKey : string;
  request_events : list LogEvent;
  request_environment : string
}.

(** The queue of the client and, as a record of its requests, every POST
    with its outcome. *)
Record ClientState := {
  queue : list LogEvent;
  posts : list (PostRequest * PostOutcome)
}.

(** The request that [flush] makes for the events that it took. *)
Definition request_of (c : ClientConfig) (events : list LogEvent)
    : PostRequest :=
  {| request_endpoint := endpoint c;
     request_apiKey := apiKey c;
     request_events := events;
     request_environment := client_environment c |}.

(** [const events = [...this.queue]; this.queue = []] and the request. *)
Definition flush_begin (c : ClientConfig) (post : PostOutcome)
    (st : ClientState) : list LogEvent * ClientState :=
  (queue st,
   {| queue := [];
      posts := posts st ++ [(request_of c (queue st), post)] |}).

(** After the request: [this.queue.unshift(...events)] unless the
    response is ok. *)
Definition flush_end (post : PostOutcome) (events : list LogEvent)
    (st : ClientState) : ClientState :=
  match post with
  | PostOk => st
  | _ => {| queue := events ++ queue st; posts := posts st |}
  end.

(** [flush], run without another operation in between. *)
Definition flush (c : ClientConfig) (post : PostOutcome) (st : ClientState)
    : ClientState :=
  match queue st with
  | [] => st
  | _ =>
      let '(events, st) := flush_begin c post st in
      flush_end post events st
  end.

(** [{ ...event, service: event.service || config.service,
       timestamp: event.timestamp || new Date().toISOString() }] *)
Definition enrich (c : ClientConfig) (now_iso : string) (event : LogEvent)
    : LogEvent :=
  {| eventType := eventType event;
     correlationId := correlationId event;
     service := Some (or_string (service event) (client_service c));
     level := level event;
     priority := priority event;
     timestamp := Some (or_string (timestamp event) now_iso);
     details := details event;
     metadata := metadata event |}.

Definition send (c : ClientConfig) (now_iso : string) (post : PostOutcome)
    (event : LogEvent) (st : ClientState) : ClientState :=
  if negb (enabled c) then st
  else
    let st := {| queue := queue st ++ [enrich c now_iso event];
                 posts := posts st |} in
    if (batchSize c <=? Z.of_nat (length (queue st)))%Z
    then flush c post st
    else st.

(** The callback of the flush timer. *)
Definition tick (c : ClientConfig) (post : PostOutcome) (st : ClientState)
    : ClientState :=
  if (0 <? length (queue st))%nat then flush c post st else st.

(** The operations on a client; each carries the outcome of the POST that
    it may make. *)
Inductive ClientOp :=
| Send (event : LogEvent) (now_iso : string) (post : PostOutcome)
| Flush (post : PostOutcome)
| Tick (post : PostOutcome).

Definition step (c : ClientConfig) (st : ClientState) (op : ClientOp)
    : ClientState :=
  match op with
  | Send event now_iso post => send c now_iso post event st
  | Flush post => flush c post st
  | Tick post => tick c post st
  end.

Definition run_client (c : ClientConfig) (ops : list ClientOp) : ClientState :=
  foldl (step c) {| queue := []; posts := [] |} ops.

(** The events that the operations sent, as the client queued them. *)
Definition sent_events (c : ClientConfig) (ops : list ClientOp)
    : list LogEvent :=
  flat_map (λ op, match op with
                  | Send event now_iso _ => [enrich c now_iso event]
                  | _ => []
                  end) ops.

(** The events of the requests that the server took. *)
Definition delivered (st : ClientState) : list LogEvent :=
  flat_map (λ '(request, outcome),
              match outcome with
              | PostOk => request_events request
              | _ => []
              end) (posts st).


(** *** Operations that overlap *)

(** [flush] gives up control at [await fetch]: until the request settles,
    other calls of [send], [flush] and the timer run on the same queue.
    The state then also holds the requests that have not settled. *)
Record Overlapping := {
  client : ClientState;
  pending : list PostRequest
}.

(** [flush] up to [await fetch]. *)
Definition begin_flush (c : ClientConfig) (st : Overlapping) : Overlapping :=
  match queue (client st) with
  | [] => st
  | events =>
      {| client := {| queue := []; posts := posts (client st) |};
         pending := pending st ++ [request_of c events] |}
  end.

(** [flush] after [await fetch], for the request at position [n] of the
    pending ones. *)
Definition settle (n : nat) (outcome : PostOutcome) (st : Overlapping)
    : Overlapping :=
  match pending st !! n with
  | None => st
  | Some request =>
      {| client :=
           flush_end outcome (request_events request)
             {| queue := queue (client st);
                posts := posts (client st) ++ [(request, outcome)] |};
         pending := delete n (pending st) |}
  end.

(** What happens to a client: a call of [send], of [flush] (also the one
    of [destroy]), a tick of the timer, and a request that settles. *)
Inductive Activity :=
| Sends (event : LogEvent) (now_iso : string)
| Flushes
| Ticks
| Settles (n : nat) (outcome : PostOutcome).

Definition act (c : ClientConfig) (st : Overlapping) (a : Activity)
    : Overlapping :=
  match a with
  | Sends event now_iso =>
      if negb (enabled c) then st
      else
        let st := {| client :=
                       {| queue := queue (client st)
                                   ++ [enrich c now_iso event];
                          posts := posts (client st) |};
                     pending := pending st |} in
        if (batchSize c <=? Z.of_nat (length (queue (client st))))%Z
        then begin_flush c st
        else st
  | Flushes => begin_flush c st
  | Ticks =>
      if (0 <? length (queue (client st)))%nat then begin_flush c st else st
  | Settles n outcome => settle n outcome st
  end.

Definition run_schedule (c : ClientConfig) (schedule : list Activity)
    : Overlapping :=
  foldl (act c) {| client := {| queue := []; posts := [] |}; pending := [] |}
    schedule.

(** The events that the schedule sent, as the client queued them. *)
Definition sent_by (c : ClientConfig) (schedule : list Activity)
    : list LogEvent :=
  flat_map (λ a, match a with
                 | Sends event now_iso => [enrich c now_iso event]
                 | _ => []
                 end) schedule.

(** The events of the requests that have not settled. *)
Definition in_flight (st : Overlapping) : list LogEvent :=
  flat_map request_events (pending st).

(** Every request that the client made, settled or not. *)
Definition requests (st : Overlapping) : list PostRequest :=
  (posts (client st)).*1 ++ pending st.

(** *** Sample client *)

Definition sample_config : DebugQueueConfig :=
  {| config_endpoint := None; config_apiKey := Some "dev-api-key";
     config_service := Some "test-client";
     config_environment := Some "test"; config_batchSize := Some 2%Z;
     config_flushInterval := None; config_enabled := Some true |}.

Definition no_variables : ClientEnv :=
  {| TRACEPULSE_ENDPOINT := None; TRACEPULSE_API_KEY := None;
     SERVICE_NAME := None; NODE_ENV := None |}.

Definition sample_client : ClientConfig :=
  resolve_config sample_config no_variables.

Definition sample_event (type : string) : LogEvent :=
  DebugQueue_critical 1700000000000 "k3j9x2m4q" type []
    {| options_correlationId := None; options_priority := None;
       options_level := None |}.

Definition sample_operations : list ClientOp :=
  [ Send (sample_event "PAYMENT_FAILED") "2024-01-01T00:00:00.000Z" PostOk;
    Send (sample_event "SESSION_DROPPED") "2024-01-01T00:00:01.000Z" PostOk;
    Tick PostOk ].

Definition sample_schedule : list Activity :=
  [ Sends (sample_event "PAYMENT_FAILED") "2024-01-01T00:00:00.000Z";
    Flushes;
    Sends (sample_event "SESSION_DROPPED") "2024-01-01T00:00:01.000Z";
    Flushes;
    Settles 1 PostOk;
    Settles 0 PostThrows ].

(** A client under test: nothing configured, [NODE_ENV] is [test]. *)
Definition test_client : ClientConfig :=
  resolve_config
    {| config_endpoint := None; config_apiKey := None;
       config_service := None; config_environment := None;
       config_batchSize := None; config_flushInterval := None;
       config_enabled := None |}
    {| TRACEPULSE_ENDPOINT := None; TRACEPULSE_API_KEY := None;
       SERVICE_NAME := None; NODE_ENV := Some "test" |}.

(** A configuration leaves a string unset when the field is absent or
    empty. *)
Definition unset (value : option string) : Prop :=
  value = None ∨ value = Some "".



(** ** The Grafana client ([services/grafana.ts]) *)

Record LogEntry := {
  entry_timestamp : string;
  entry_line : string;
  entry_labels : list (string * string)
}.

Record LogQuery := {
  query : string;
  query_start : option string;
  query_end : option string;
  query_limit : option Z
}.

(** The character that delimits a string inside a query. *)
Definition quoted (s : string) : string :=
  String (Ascii.ascii_of_nat 34) (s +:+ String (Ascii.ascii_of_nat 34) "").

Definition errorQueries : list string :=
  [ "{level=" +:+ quoted "error" +:+ "}";
    "{level=" +:+ quoted "critical" +:+ "}";
    "{level=" +:+ quoted "fatal" +:+ "}";
    "{} |~ " +:+ quoted "(?i)(error|exception|failed|timeout|crash)";
    "{} |~ " +:+ quoted "(?i)(session.*drop|payment.*fail|auth.*fail)" ].

(** [`${event.timestamp}-${event.line}`] *)
Definition entry_key (event : LogEntry) : string :=
  entry_timestamp event +:+ "-" +:+ entry_line event.

(** [if (!unique.has(key)) unique.set(key, event)] on a [Map], whose
    entries keep the order of their insertion. *)
Definition Map_set_new (unique : list (string * LogEntry)) (event : LogEntry)
    : list (string * LogEntry) :=
  if decide (entry_key event ∈ unique.*1) then unique
  else unique ++ [(entry_key event, event)].

(** [detectCriticalEvents]; [start] is the printed start of the time
    window and [queryLogs] what the log store answers to each query. *)
Definition detectCriticalEvents (start : string)
    (queryLogs : LogQuery → list LogEntry) : list LogEntry :=
  let allEvents :=
    flat_map (λ q, queryLogs {| query := q; query_start := Some start;
                                query_end := None;
                                query_limit := Some 100%Z |})
      errorQueries in
  let unique := foldl Map_set_new [] allEvents in
  unique.*2.

(** The events that [detectCriticalEvents] collects before it removes
    the duplicates. *)
Definition collected (start : string) (queryLogs : LogQuery → list LogEntry)
    : list LogEntry :=
  flat_map (λ q, queryLogs {| query := q; query_start := Some start;
                              query_end := None;
                              query_limit := Some 100%Z |})
    errorQueries.

(** The first event of a list with the key of [event]. *)
Definition first_with_key (events : list LogEntry) (event : LogEntry)
    : option LogEntry :=
  head (List.filter (λ e, bool_decide (entry_key e = entry_key event)) events).

(** The events of a list whose key is new: not among [seen] and not the
    key of an earlier event of the list. *)
Fixpoint first_entries (seen : list string) (events : list LogEntry)
    : list LogEntry :=
  match events with
  | [] => []
  | event :: events =>
      if decide (entry_key event ∈ seen) then first_entries seen events
      else event :: first_entries (seen ++ [entry_key event]) events
  end.

(** * Properties *)

(** ** Insertion-ordered sets *)

Lemma Set_add_elem x y s : x ∈ Set_add y s ↔ x = y ∨ x ∈ s.
Proof.
  unfold Set_add. destruct (decide (y ∈ s)).
  - split; [auto | intros [-> |]; auto].
  - rewrite elem_of_app, list_elem_of_singleton. tauto.
Qed.

Lemma Set_add_NoDup y s : NoDup s → NoDup (Set_add y s).
Proof.
  intros Hs. unfold Set_add. destruct (decide (y ∈ s)); [done |].
  apply NoDup_app. split_and!; [done | | apply NoDup_singleton].
  intros x Hx Hy. apply list_elem_of_singleton in Hy. by subst.
Qed.

Lemma Set_fold_elem x l s :
  x ∈ foldl (λ s x, Set_add x s) s l ↔ x ∈ s ∨ x ∈ l.
Proof.
  revert s. induction l as [| y l IH]; intros s; simpl.
  - rewrite elem_of_nil. tauto.
  - rewrite IH, Set_add_elem, elem_of_cons. tauto.
Qed.

Lemma Set_fold_NoDup l s :
  NoDup s → NoDup (foldl (λ s x, Set_add x s) s l).
Proof.
  revert s. induction l as [| y l IH]; intros s Hs; simpl; [done |].
  by apply IH, Set_add_NoDup.
Qed.

Lemma Set_from_elem x l : x ∈ Set_from l ↔ x ∈ l.
Proof. unfold Set_from. rewrite Set_fold_elem, elem_of_nil. tauto. Qed.

Lemma Set_from_NoDup l : NoDup (Set_from l).
Proof. apply Set_fold_NoDup, NoDup_nil_2. Qed.

(** ** The dependency relation of a system map *)

Lemma lookup_service_elem entries name service :
  lookup_service entries name = Some service → (name, service) ∈ entries.
Proof.
  induction entries as [| [key s] rest IH]; simpl; [done |].
  destruct (decide (key = name)) as [-> |].
  - intros [= ->]. apply list_elem_of_here.
  - intros H. apply list_elem_of_further. auto.
Qed.


Lemma includes_dep_true service name :
  includes_dep service name = true
  ↔ ∃ deps, depends_on service = Some deps ∧ name ∈ deps.
Proof.
  unfold includes_dep. destruct (depends_on service) as [deps |].
  - rewrite bool_decide_eq_true. split; [eauto |].
    by intros (? & [= <-] & ?).
  - split; [done | by intros (? & ? & ?)].
Qed.

Lemma findDependents_entries_elem x name entries :
  x ∈ findDependents_entries name entries
  ↔ ∃ service, (x, service) ∈ entries ∧ includes_dep service name = true.
Proof.
  induction entries as [| [key s] rest IH]; simpl.
  - split; [by intros ?%elem_of_nil | by intros (? & ?%elem_of_nil & _)].
  - destruct (includes_dep s name) eqn:Hs.
    + rewrite elem_of_cons, IH. split.
      * intros [-> | (s' & ? & ?)]; [exists s | exists s'];
          rewrite elem_of_cons; auto.
      * intros (s' & [[= -> ->] | ?]%elem_of_cons & ?); eauto.
    + rewrite IH. split.
      * intros (s' & ? & ?). exists s'. rewrite elem_of_cons. auto.
      * intros (s' & [[= -> ->] | ?]%elem_of_cons & ?); [congruence | eauto].
Qed.

Lemma findDependents_elem x name systemMap :
  x ∈ findDependents name systemMap ↔ depends_directly systemMap x name.
Proof.
  unfold findDependents, depends_directly.
  rewrite findDependents_entries_elem. split.
  - intros (s & ? & (deps & ? & ?)%includes_dep_true). eauto.
  - intros (s & deps & ? & ? & ?). exists s. split; [done |].
    apply includes_dep_true. eauto.
Qed.

Lemma findDependents_declared x name systemMap :
  x ∈ findDependents name systemMap → declared systemMap x.
Proof.
  intros (s & Hin & _)%findDependents_entries_elem.
  unfold declared. apply list_elem_of_fmap. by exists (x, s).
Qed.

(** ** [findServiceDependencies]: soundness *)

Section push_transitive_sound.
Context (systemMap : SystemMap) (root : string)
        (recur : string → gset string → option (list string * gset string)).
Hypothesis recur_sound : ∀ dep visited found visited',
  recur dep visited = Some (found, visited') →
  ∀ y, y ∈ found → depends_transitively systemMap dep y.

Lemma push_transitive_sound deps dependencies visited result visited' :
  push_transitive recur deps dependencies visited = Some (result, visited') →
  (∀ dep, dep ∈ deps → depends_directly systemMap root dep) →
  (∀ y, y ∈ dependencies → depends_transitively systemMap root y) →
  ∀ y, y ∈ result → depends_transitively systemMap root y.
Proof.
  revert dependencies visited.
  induction deps as [| dep rest IH]; intros acc visited; simpl.
  - intros [= <- <-] _ Hacc. exact Hacc.
  - destruct (recur dep visited) as [[found v1] |] eqn:Hrec; [| done].
    intros Hpush Hdeps Hacc. eapply IH; [exact Hpush | |].
    + intros d Hd. apply Hdeps. by apply list_elem_of_further.
    + intros y [Hy | Hy]%elem_of_app; [by apply Hacc |].
      eapply tc_l; [apply Hdeps, list_elem_of_here |].
      eapply recur_sound; eauto.
Qed.
End push_transitive_sound.

Lemma findServiceDependencies_from_sound systemMap fuel :
  ∀ serviceName visited found visited',
    findServiceDependencies_from fuel systemMap serviceName visited
      = Some (found, visited') →
    ∀ y, y ∈ found → depends_transitively systemMap serviceName y.
Proof.
  induction fuel as [| fuel IH]; intros name visited found visited'; simpl;
    [done |].
  destruct (decide (name ∈ visited)).
  { intros [= <- <-] y Hy. by apply elem_of_nil in Hy. }
  destruct (lookup_service (services systemMap) name) as [service |] eqn:Hsvc;
    [| intros [= <- <-] y Hy; by apply elem_of_nil in Hy].
  destruct (depends_on service) as [deps |] eqn:Hdeps;
    [| intros [= <- <-] y Hy; by apply elem_of_nil in Hy].
  destruct (push_transitive _ deps deps _) as [[result v1] |] eqn:Hpush;
    [| done].
  intros [= <- <-] y Hy. rewrite Set_from_elem in Hy.
  assert (Hdirect : ∀ dep, dep ∈ deps → depends_directly systemMap name dep).
  { intros dep Hdep. exists service, deps.
    split_and!; [by apply lookup_service_elem | done | done]. }
  refine (push_transitive_sound systemMap name _ IH deps deps _ result v1
            Hpush Hdirect _ y Hy).
  intros z Hz. apply tc_once. auto.
Qed.

Lemma findServiceDependencies_sound systemMap serviceName found :
  findServiceDependencies serviceName systemMap = Some found →
  ∀ y, y ∈ found → depends_transitively systemMap serviceName y.
Proof.
  unfold findServiceDependencies. intros Hfind.
  destruct (findServiceDependencies_from _ _ _ _) as [[f v] |] eqn:Hfrom;
    [| done].
  injection Hfind as <-. eapply findServiceDependencies_from_sound; eauto.
Qed.

(** ** [findServiceDependencies]: termination *)

Lemma size_list_to_set_bound (l : list string) :
  size (list_to_set l : gset string) ≤ length l.
Proof.
  induction l as [| x l IH]; simpl.
  - change (size (∅ : gset string) ≤ 0). by rewrite size_empty.
  - change (size ({[x]} ∪ list_to_set l : gset string) ≤ S (length l)).
    rewrite size_union_alt, size_singleton.
    assert (Hsub : size (list_to_set l ∖ {[x]} : gset string)
                   ≤ size (list_to_set l : gset string)).
    { apply subseteq_size. set_solver. }
    lia.
Qed.

Lemma unvisited_bound systemMap visited :
  size (unvisited systemMap visited) ≤ length (services systemMap).
Proof.
  unfold unvisited.
  assert (Hsub : size (list_to_set (services systemMap).*1 ∖ visited
                         : gset string)
                 ≤ size (list_to_set (services systemMap).*1 : gset string)).
  { apply subseteq_size. set_solver. }
  pose proof (size_list_to_set_bound (services systemMap).*1) as Hlen.
  rewrite length_fmap in Hlen. lia.
Qed.

Section push_transitive_total.
Context (systemMap : SystemMap) (bound : nat)
        (recur : string → gset string → option (list string * gset string)).
Hypothesis recur_total : ∀ dep visited,
  size (unvisited systemMap visited) ≤ bound →
  ∃ found visited',
    recur dep visited = Some (found, visited') ∧ visited ⊆ visited'.

Lemma push_transitive_total deps dependencies visited :
  size (unvisited systemMap visited) ≤ bound →
  ∃ result visited',
    push_transitive recur deps dependencies visited
      = Some (result, visited')
    ∧ visited ⊆ visited'.
Proof.
  revert dependencies visited.
  induction deps as [| dep rest IH]; intros acc visited Hsize; simpl.
  - by exists acc, visited.
  - destruct (recur_total dep visited Hsize) as (found & v1 & -> & Hsub).
    destruct (IH (acc ++ found) v1) as (result & v2 & -> & Hsub2).
    + etrans; [apply subseteq_size | exact Hsize].
      unfold unvisited. set_solver.
    + exists result, v2. split; [done | set_solver].
Qed.
End push_transitive_total.

Lemma findServiceDependencies_from_total systemMap fuel :
  ∀ serviceName visited,
    size (unvisited systemMap visited) < fuel →
    ∃ found visited',
      findServiceDependencies_from fuel systemMap serviceName visited
        = Some (found, visited')
      ∧ visited ⊆ visited'.
Proof.
  induction fuel as [| fuel IH]; intros name visited Hsize; [lia |]. simpl.
  destruct (decide (name ∈ visited)) as [Hin | Hnotin]; [by eauto |].
  destruct (lookup_service (services systemMap) name) as [service |] eqn:Hsvc;
    [| eexists _, _; split; [done | set_solver]].
  destruct (depends_on service) as [deps |];
    [| eexists _, _; split; [done | set_solver]].
  assert (Hstrict : size (unvisited systemMap ({[name]} ∪ visited))
                    < size (unvisited systemMap visited)).
  { apply subset_size. unfold unvisited.
    assert (name ∈ (list_to_set (services systemMap).*1 : gset string)).
    { apply elem_of_list_to_set, list_elem_of_fmap.
      exists (name, service). split; [done |].
      by apply lookup_service_elem. }
    set_solver. }
  destruct (push_transitive_total systemMap
              (size (unvisited systemMap ({[name]} ∪ visited)))
              (findServiceDependencies_from fuel systemMap))
    with (deps := deps) (dependencies := deps) (visited := {[name]} ∪ visited)
    as (result & v1 & -> & Hsub); [| done |].
  - intros dep v Hv. apply IH. lia.
  - eexists _, _. split; [done | set_solver].
Qed.

Lemma findServiceDependencies_total serviceName systemMap :
  is_Some (findServiceDependencies serviceName systemMap).
Proof.
  unfold findServiceDependencies.
  destruct (findServiceDependencies_from_total systemMap
              (S (length (services systemMap))) serviceName ∅)
    as (found & v & -> & _); [| by eexists].
  pose proof (unvisited_bound systemMap ∅). lia.
Qed.

(** ** [analyzeImpact]: the breadth-first closure *)

Lemma discover_fold_elem deps : ∀ allDependents queue allDependents' queue' x,
  foldl discover (allDependents, queue) deps = (allDependents', queue') →
  x ∈ allDependents' ∨ x ∈ queue' →
  x ∈ allDependents ∨ x ∈ queue ∨ x ∈ deps.
Proof.
  induction deps as [| dep rest IH]; intros all queue all' queue' x; simpl.
  - intros [= <- <-]. tauto.
  - destruct (decide (dep ∈ all)); intros Hfold Hx.
    + destruct (IH _ _ _ _ x Hfold Hx) as [? | [? | ?]]; auto.
      do 2 right. by apply list_elem_of_further.
    + destruct (IH _ _ _ _ x Hfold Hx)
        as [[? | ->%list_elem_of_singleton]%elem_of_app
           | [[? | ->%list_elem_of_singleton]%elem_of_app | ?]]; auto;
        do 2 right; (apply list_elem_of_here || by apply list_elem_of_further).
Qed.

Lemma discover_fold_NoDup deps : ∀ allDependents queue allDependents' queue',
  foldl discover (allDependents, queue) deps = (allDependents', queue') →
  NoDup allDependents → NoDup allDependents'.
Proof.
  induction deps as [| dep rest IH]; intros all queue all' queue'; simpl.
  - by intros [= <- <-].
  - destruct (decide (dep ∈ all)); intros Hfold Hnd.
    + eauto.
    + eapply IH; [exact Hfold |]. apply NoDup_app.
      split_and!; [done | | apply NoDup_singleton].
      intros y Hy ->%list_elem_of_singleton. done.
Qed.

Lemma expand_dependents_sound systemMap (P : string → Prop) :
  (∀ x y, depends_directly systemMap x y → P y → P x) →
  ∀ fuel allDependents queue result,
    expand_dependents fuel systemMap allDependents queue = Some result →
    (∀ x, x ∈ allDependents → P x) → (∀ x, x ∈ queue → P x) →
    ∀ x, x ∈ result → P x.
Proof.
  intros Hstep fuel.
  induction fuel as [| fuel IH]; intros all queue result;
    (destruct queue as [| current queue]; simpl; [by intros [= <-] | ]);
    [done |].
  destruct (foldl discover (all, queue) (findDependents current systemMap))
    as [all' queue'] eqn:Hfold.
  intros Hexp Hall Hqueue. eapply IH; [exact Hexp | |].
  - intros x Hx.
    destruct (discover_fold_elem _ _ _ _ _ x Hfold (or_introl Hx))
      as [? | [? | Hdep]]; [auto | apply Hqueue; by apply list_elem_of_further |].
    apply findDependents_elem in Hdep.
    eapply Hstep; [exact Hdep |]. apply Hqueue, list_elem_of_here.
  - intros x Hx.
    destruct (discover_fold_elem _ _ _ _ _ x Hfold (or_intror Hx))
      as [? | [? | Hdep]]; [auto | apply Hqueue; by apply list_elem_of_further |].
    apply findDependents_elem in Hdep.
    eapply Hstep; [exact Hdep |]. apply Hqueue, list_elem_of_here.
Qed.

Lemma expand_dependents_NoDup systemMap :
  ∀ fuel allDependents queue result,
    expand_dependents fuel systemMap allDependents queue = Some result →
    NoDup allDependents → NoDup result.
Proof.
  induction fuel as [| fuel IH]; intros all queue result;
    (destruct queue as [| current queue]; simpl; [by intros [= <-] | ]);
    [done |].
  destruct (foldl discover (all, queue) (findDependents current systemMap))
    as [all' queue'] eqn:Hfold.
  intros Hexp Hnd. eapply IH; [exact Hexp |].
  eapply discover_fold_NoDup; eauto.
Qed.

Lemma unseen_mono entries allDependents dep :
  unseen entries (allDependents ++ [dep]) ≤ unseen entries allDependents.
Proof.
  unfold unseen. induction entries as [| [key s] rest IH]; [done |].
  rewrite !filter_cons. simpl.
  destruct (decide (key ∉ allDependents ++ [dep])) as [Hnew | Hnew];
    destruct (decide (key ∉ allDependents)) as [Hold | Hold]; simpl; try lia.
  exfalso. apply Hold. intros Hin. apply Hnew, elem_of_app. auto.
Qed.

Lemma unseen_add entries allDependents dep :
  dep ∈ entries.*1 → dep ∉ allDependents →
  unseen entries (allDependents ++ [dep]) < unseen entries allDependents.
Proof.
  intros Hdep Hfresh. unfold unseen.
  induction entries as [| [key s] rest IH]; [by apply elem_of_nil in Hdep |].
  rewrite !filter_cons. simpl.
  pose proof (unseen_mono rest allDependents dep) as Hmono. unfold unseen in Hmono.
  rewrite fmap_cons in Hdep. simpl in Hdep.
  apply elem_of_cons in Hdep as [<- | Hdep].
  - destruct (decide (dep ∉ allDependents ++ [dep])) as [Hnew | _].
    + exfalso. apply Hnew, elem_of_app. right. apply list_elem_of_here.
    + destruct (decide (dep ∉ allDependents)); [simpl; lia | done].
  - specialize (IH Hdep).
    destruct (decide (key ∉ allDependents ++ [dep])) as [Hnew | Hnew];
      destruct (decide (key ∉ allDependents)) as [Hold | Hold]; simpl; try lia.
    exfalso. apply Hold. intros Hin. apply Hnew, elem_of_app. auto.
Qed.

Lemma discover_fold_measure entries deps : ∀ allDependents queue allDependents' queue',
  (∀ dep, dep ∈ deps → dep ∈ entries.*1) →
  foldl discover (allDependents, queue) deps = (allDependents', queue') →
  length queue' + unseen entries allDependents'
  ≤ length queue + unseen entries allDependents.
Proof.
  induction deps as [| dep rest IH]; intros all queue all' queue' Hdeps; simpl.
  - by intros [= <- <-].
  - destruct (decide (dep ∈ all)); intros Hfold.
    + eapply IH; [| exact Hfold]. intros d Hd.
      by apply Hdeps, list_elem_of_further.
    + etrans; [eapply IH; [| exact Hfold] |].
      * intros d Hd. by apply Hdeps, list_elem_of_further.
      * rewrite length_app. simpl.
        pose proof (unseen_add entries all dep
                      (Hdeps dep (list_elem_of_here _ _)) n). lia.
Qed.

Lemma expand_dependents_total systemMap :
  ∀ fuel allDependents queue,
    length queue + unseen (services systemMap) allDependents ≤ fuel →
    is_Some (expand_dependents fuel systemMap allDependents queue).
Proof.
  induction fuel as [| fuel IH]; intros all queue;
    (destruct queue as [| current queue]; simpl; [by eexists |]);
    [lia |].
  intros Hfuel.
  destruct (foldl discover (all, queue) (findDependents current systemMap))
    as [all' queue'] eqn:Hfold.
  apply IH.
  pose proof (discover_fold_measure (services systemMap) _ _ _ _ _
                (λ dep, findDependents_declared dep current systemMap) Hfold).
  lia.
Qed.

Lemma findDependents_measure name entries (seen : list string) :
  (∀ x, x ∈ findDependents_entries name entries → x ∈ seen) →
  length (findDependents_entries name entries) + unseen entries seen
  ≤ length entries.
Proof.
  unfold unseen. induction entries as [| [key s] rest IH]; simpl; [done |].
  rewrite filter_cons. simpl. destruct (includes_dep s name).
  - intros Hseen.
    destruct (decide (key ∉ seen)) as [Hkey | _].
    + exfalso. apply Hkey, Hseen, list_elem_of_here.
    + simpl. specialize (IH (λ x Hx, Hseen x (list_elem_of_further _ _ _ Hx))).
      lia.
  - intros Hseen. specialize (IH Hseen).
    destruct (decide (key ∉ seen)); simpl; lia.
Qed.

Lemma analyzeImpact_total affectedService systemMap :
  is_Some (analyzeImpact affectedService systemMap).
Proof.
  unfold analyzeImpact.
  destruct (findServiceDependencies_total affectedService systemMap)
    as [dependencies ->].
  destruct (expand_dependents_total systemMap
              (S (length (services systemMap)))
              (Set_from (findDependents affectedService systemMap))
              (findDependents affectedService systemMap))
    as [allDependents ->]; [| by eexists].
  pose proof (findDependents_measure affectedService (services systemMap)
                (Set_from (findDependents affectedService systemMap))) as H.
  unfold findDependents in *.
  specialize (H (λ x Hx, proj2 (Set_from_elem x _) Hx)). lia.
Qed.

(** The three results of [analyzeImpact], unfolded. *)
Lemma analyzeImpact_Some affectedService systemMap impact :
  analyzeImpact affectedService systemMap = Some impact →
  directDependents impact = findDependents affectedService systemMap
  ∧ findServiceDependencies affectedService systemMap
    = Some (dependencies impact)
  ∧ expand_dependents (S (length (services systemMap))) systemMap
      (Set_from (findDependents affectedService systemMap))
      (findDependents affectedService systemMap)
    = Some (allDependents impact).
Proof.
  unfold analyzeImpact. intros H.
  destruct (findServiceDependencies affectedService systemMap)
    as [deps |]; [| done].
  destruct (expand_dependents (S (length (services systemMap))) systemMap
              (Set_from (findDependents affectedService systemMap))
              (findDependents affectedService systemMap))
    as [closure |]; [| done].
  by injection H as <-.
Qed.

Lemma allDependents_sound affectedService systemMap impact :
  analyzeImpact affectedService systemMap = Some impact →
  ∀ x, x ∈ allDependents impact →
       depends_transitively systemMap x affectedService.
Proof.
  intros (_ & _ & Hexp)%analyzeImpact_Some.
  assert (Hdirect : ∀ x, x ∈ findDependents affectedService systemMap →
                         depends_transitively systemMap x affectedService).
  { intros x Hx%findDependents_elem. by apply tc_once. }
  eapply (expand_dependents_sound systemMap
            (λ x, depends_transitively systemMap x affectedService));
    [| exact Hexp | |].
  - intros x y Hxy Hy. by eapply tc_l.
  - intros x Hx. rewrite Set_from_elem in Hx. auto.
  - auto.
Qed.

Lemma allDependents_NoDup affectedService systemMap impact :
  analyzeImpact affectedService systemMap = Some impact →
  NoDup (allDependents impact).
Proof.
  intros (_ & _ & Hexp)%analyzeImpact_Some.
  eapply expand_dependents_NoDup; [exact Hexp | apply Set_from_NoDup].
Qed.




(** The scenario of the specification: A depends on B, B on C. *)
Example impact_of_B_in_chain :
  analyzeImpact "B" chain_ABC
  = Some {| directDependents := ["A"];
            allDependents := ["A"];
            dependencies := ["C"] |}.
Proof. vm_compute. reflexivity. Qed.

(** ** More fuel *)

(** More fuel does not change a result. *)
Lemma push_transitive_mono
    (recur recur' : string → gset string → option (list string * gset string)) :
  (∀ dep visited result, recur dep visited = Some result →
                         recur' dep visited = Some result) →
  ∀ deps dependencies visited result,
    push_transitive recur deps dependencies visited = Some result →
    push_transitive recur' deps dependencies visited = Some result.
Proof.
  intros Hrecur. induction deps as [| dep rest IH];
    intros acc visited result; simpl; [done |].
  destruct (recur dep visited) as [[found v1] |] eqn:Hdep; [| done].
  rewrite (Hrecur _ _ _ Hdep). apply IH.
Qed.

Lemma findServiceDependencies_from_mono systemMap fuel :
  ∀ serviceName visited result,
    findServiceDependencies_from fuel systemMap serviceName visited
      = Some result →
    findServiceDependencies_from (S fuel) systemMap serviceName visited
      = Some result.
Proof.
  induction fuel as [| fuel IH]; intros name visited result; [done |].
  intros Hrun. simpl in Hrun. change (findServiceDependencies_from (S (S fuel))
    systemMap name visited) with
    (if decide (name ∈ visited) then Some ([], visited)
     else match lookup_service (services systemMap) name with
          | None => Some ([], {[name]} ∪ visited)
          | Some service =>
              match depends_on service with
              | None => Some ([], {[name]} ∪ visited)
              | Some deps =>
                  match push_transitive
                          (findServiceDependencies_from (S fuel) systemMap)
                          deps deps ({[name]} ∪ visited) with
                  | None => None
                  | Some (dependencies, visited') =>
                      Some (Set_from dependencies, visited')
                  end
              end
          end).
  destruct (decide (name ∈ visited)); [done |].
  destruct (lookup_service (services systemMap) name) as [service |];
    [| done].
  destruct (depends_on service) as [deps |]; [| done].
  destruct (push_transitive (findServiceDependencies_from fuel systemMap)
              deps deps ({[name]} ∪ visited)) as [[found v1] |] eqn:Hpush;
    [| done].
  by rewrite (push_transitive_mono _ _ IH _ _ _ _ Hpush).
Qed.

Lemma expand_dependents_mono systemMap fuel :
  ∀ allDependents queue result,
    expand_dependents fuel systemMap allDependents queue = Some result →
    expand_dependents (S fuel) systemMap allDependents queue = Some result.
Proof.
  induction fuel as [| fuel IH]; intros closure queue result;
    destruct queue as [| current queue]; try done.
  simpl. destruct (foldl discover (closure, queue)
                     (findDependents current systemMap)) as [all' queue'].
  apply IH.
Qed.

Lemma findServiceDependencies_from_more_fuel systemMap fuel fuel' :
  ∀ serviceName visited result,
    findServiceDependencies_from fuel systemMap serviceName visited
      = Some result →
    fuel ≤ fuel' →
    findServiceDependencies_from fuel' systemMap serviceName visited
      = Some result.
Proof.
  intros name visited result Hrun Hle.
  induction Hle as [| fuel' Hle IH]; [done |].
  by apply findServiceDependencies_from_mono.
Qed.

Lemma two_entries (entries : list (string * SystemMapService)) a b
    serviceA serviceB :
  a ≠ b → (a, serviceA) ∈ entries → (b, serviceB) ∈ entries →
  2 ≤ length entries.
Proof.
  intros Hab HA HB.
  destruct entries as [| e1 [| e2 rest]]; simpl; [| | lia].
  - by apply elem_of_nil in HA.
  - apply list_elem_of_singleton in HA, HB. congruence.
Qed.

(** ** The claims about the dependency graph *)

(** C1, counterexample. With A and B depending on each other, A is among
    its own dependencies and among its own transitive dependents; a service
    that lists itself is its own direct dependent. *)
Lemma C1_cycle_contains_service :
  analyzeImpact "A" (cyclic_pair "A" "B")
    = Some {| directDependents := ["B"];
              allDependents := ["B"; "A"];
              dependencies := ["B"; "A"] |}
  ∧ analyzeImpact "A" self_loop
    = Some {| directDependents := ["A"];
              allDependents := ["A"];
              dependencies := ["A"] |}.
Proof. split; vm_compute; reflexivity. Qed.

(** C1, amended. For every dependency graph and every service id [s] that
    does not depend on itself along a chain of [depends_on] edges, the
    impact computation returns, and none of its three results (dependencies,
    direct dependents, all transitive dependents) contains [s]. *)
Theorem C1_impact_excludes_service systemMap s :
  ¬ depends_transitively systemMap s s →
  ∃ impact,
    analyzeImpact s systemMap = Some impact
    ∧ (s ∉ dependencies impact)
    ∧ (s ∉ directDependents impact)
    ∧ (s ∉ allDependents impact).
Proof.
  intros Hacyclic.
  destruct (analyzeImpact_total s systemMap) as [impact Himpact].
  exists impact. split; [done |].
  pose proof (analyzeImpact_Some _ _ _ Himpact) as (Hdirect & Hdeps & _).
  split_and!.
  - intros Hin. apply Hacyclic.
    by eapply findServiceDependencies_sound.
  - rewrite Hdirect. intros Hin%findDependents_elem.
    by apply Hacyclic, tc_once.
  - intros Hin. apply Hacyclic. by eapply allDependents_sound.
Qed.

Lemma chain_ABC_edges x y :
  depends_directly chain_ABC x y → (x = "A" ∧ y = "B") ∨ (x = "B" ∧ y = "C").
Proof.
  intros (service & deps & Hin & Hdeps & Hy). simpl in Hin.
  repeat (apply elem_of_cons in Hin as [[= -> ->] | Hin]);
    try (by apply elem_of_nil in Hin); simpl in Hdeps;
    try discriminate; injection Hdeps as <-;
    apply list_elem_of_singleton in Hy as ->; auto.
Qed.

Lemma chain_ABC_acyclic_B : ¬ depends_transitively chain_ABC "B" "B".
Proof.
  intros Hcycle. inversion Hcycle as [? ? Hedge | ? y ? Hedge Hrest]; subst.
  - apply chain_ABC_edges in Hedge as [[? ?] | [? ?]]; discriminate.
  - apply chain_ABC_edges in Hedge as [[? ?] | [_ ->]]; [discriminate |].
    inversion Hrest as [? ? Hedge | ? z ? Hedge _]; subst;
      apply chain_ABC_edges in Hedge as [[? ?] | [? ?]]; discriminate.
Qed.

Lemma C1_impact_excludes_service_witness :
  ¬ depends_transitively chain_ABC "B" "B"
  ∧ ∃ impact,
      analyzeImpact "B" chain_ABC = Some impact
      ∧ ("B" ∉ dependencies impact)
      ∧ ("B" ∉ directDependents impact)
      ∧ ("B" ∉ allDependents impact).
Proof.
  split; [exact chain_ABC_acyclic_B |].
  exact (C1_impact_excludes_service chain_ABC "B" chain_ABC_acyclic_B).
Defined.

(** C2, counterexample. On the two-node cycle the dependencies of A are B
    and A, not B alone. *)
Lemma C2_cycle_returns_both :
  findServiceDependencies "A" (cyclic_pair "A" "B") = Some ["B"; "A"]
  ∧ findServiceDependencies "A" (cyclic_pair "A" "B") ≠ Some ["B"].
Proof. split; vm_compute; [reflexivity | discriminate]. Qed.

(** C2, amended. For the two-node cyclic graph in which A depends_on B and
    B depends_on A (and for every graph that holds these two nodes), the
    transitive dependency computation for A terminates and returns exactly
    the list [B, A]: each node is entered once, the visited set ends as
    {A, B}, and A itself is included because B lists it. *)
Theorem C2_two_node_cycle systemMap (a b : string)
    (serviceA serviceB : SystemMapService) :
  a ≠ b →
  lookup_service (services systemMap) a = Some serviceA →
  depends_on serviceA = Some [b] →
  lookup_service (services systemMap) b = Some serviceB →
  depends_on serviceB = Some [a] →
  findServiceDependencies_from 3 systemMap a ∅
    = Some ([b; a], {[b]} ∪ ({[a]} ∪ ∅))
  ∧ findServiceDependencies a systemMap = Some [b; a].
Proof.
  intros Hab HA HdepsA HB HdepsB.
  assert (Hfrom : findServiceDependencies_from 3 systemMap a ∅
                  = Some ([b; a], {[b]} ∪ ({[a]} ∪ ∅))).
  { simpl.
    rewrite (decide_False (P := a ∈ (∅ : gset string))) by set_solver.
    rewrite HA, HdepsA. simpl.
    rewrite (decide_False (P := b ∈ ({[a]} ∪ ∅ : gset string))) by set_solver.
    rewrite HB, HdepsB. simpl.
    rewrite (decide_True (P := a ∈ ({[b]} ∪ ({[a]} ∪ ∅) : gset string)))
      by set_solver.
    simpl. unfold Set_from, Set_add. simpl.
    rewrite (decide_False (P := a ∈ [b]))
      by (by intros ->%list_elem_of_singleton).
    reflexivity. }
  split; [exact Hfrom |].
  unfold findServiceDependencies.
  rewrite (findServiceDependencies_from_more_fuel systemMap 3
             (S (length (services systemMap))) a ∅ _ Hfrom); [done |].
  pose proof (two_entries (services systemMap) a b serviceA serviceB Hab
                (lookup_service_elem _ _ _ HA) (lookup_service_elem _ _ _ HB)).
  lia.
Qed.

Lemma C2_two_node_cycle_witness :
  "A" ≠ "B"
  ∧ lookup_service (services (cyclic_pair "A" "B")) "A"
    = Some (service_on ["B"])
  ∧ depends_on (service_on ["B"]) = Some ["B"]
  ∧ lookup_service (services (cyclic_pair "A" "B")) "B"
    = Some (service_on ["A"])
  ∧ depends_on (service_on ["A"]) = Some ["A"]
  ∧ findServiceDependencies_from 3 (cyclic_pair "A" "B") "A" ∅
    = Some (["B"; "A"], {["B"]} ∪ ({["A"]} ∪ ∅))
  ∧ findServiceDependencies "A" (cyclic_pair "A" "B") = Some ["B"; "A"].
Proof.
  split_and!;
    [discriminate | reflexivity | reflexivity | reflexivity | reflexivity
     | |];
    apply (C2_two_node_cycle (cyclic_pair "A" "B") "A" "B"
             (service_on ["B"]) (service_on ["A"]));
    (discriminate || reflexivity).
Defined.




(** ** The sort *)

Section sort_facts.
Context (compareFn : Hypothesis_t → Hypothesis_t → Z).

Lemma sort_insert_Permutation x sorted :
  sort_insert compareFn x sorted ≡ₚ x :: sorted.
Proof.
  induction sorted as [| y rest IH]; simpl; [done |].
  destruct (0 <? compareFn x y)%Z; [| done].
  rewrite IH. apply Permutation_swap.
Qed.


End sort_facts.

Section ranking.
Context (toNumber : string → option Z).


Lemma sort_insert_numeric x sorted :
  numeric toNumber x → Forall (numeric toNumber) sorted →
  Forall (numeric toNumber) (sort_insert (by_confidence_desc toNumber) x sorted).
Proof.
  intros Hx Hs. eapply Permutation_Forall.
  - symmetry. apply sort_insert_Permutation.
  - by constructor.
Qed.





End ranking.

(** ** Runs of the pipeline *)

Lemma generateHypotheses_run world context st :
  ∃ st',
    generateHypotheses world context st
      = Some (fresh (dom (heap st)), st')
    ∧ heap st'
      = <[fresh (dom (heap st))
          := hypotheses_generated (now world) (generator world context)]>
          (heap st).
Proof.
  unfold generateHypotheses, hypotheses_generated, bind, emit, alloc.
  destruct (generate_attempt (now world) (generator world context));
    eexists; split; reflexivity.
Qed.

Lemma generateSummary_run world event r st :
  ∃ summary st',
    generateSummary world event r st = Some (summary, st')
    ∧ heap st'
      = <[r := Array_sort (by_confidence_desc (StringToNumber world))
                 (default [] (heap st !! r))]> (heap st)
    ∧ trace st' = trace st.
Proof. unfold generateSummary, bind, read, write, ret. by eexists _, _. Qed.

Lemma analyzeEvent_run world event context st :
  ∃ impact report st',
    analyzeImpact (affectedService_of event) (systemMap context) = Some impact
    ∧ analyzeEvent world event context st = Some (Some report, st')
    ∧ report_correlationId report = or_string (correlationId event) "unknown"
    ∧ report_affectedServices report
      = affectedService_of event :: allDependents impact
    ∧ hypotheses_of st' report
      = Array_sort (by_confidence_desc (StringToNumber world))
          (hypotheses_generated (now world)
             (generator world
                (buildSystemContext event context impact
                   (getRecentDiffs world (affectedService_of event))))).
Proof.
  destruct (analyzeImpact_total (affectedService_of event) (systemMap context))
    as [impact Himpact].
  exists impact. unfold analyzeEvent.
  unfold bind at 1. unfold emit at 1. cbv beta iota.
  unfold bind at 1. unfold emit at 1. cbv beta iota.
  unfold bind at 1. unfold terminates. rewrite Himpact. cbv beta iota.
  unfold bind at 1. unfold emit at 1. cbv beta iota.
  unfold bind at 1.
  match goal with |- context [generateHypotheses ?w ?c ?s] =>
    destruct (generateHypotheses_run w c s) as (st1 & -> & Hheap1) end.
  cbv beta iota. unfold bind at 1.
  match goal with |- context [generateSummary ?w ?e ?r ?s] =>
    destruct (generateSummary_run w e r s) as (summary & st2 & -> & Hheap2 & _)
  end.
  cbv beta iota. unfold bind, emit, ret.
  eexists _, _. split_and!; try reflexivity.
  unfold hypotheses_of. cbn [heap report_hypotheses].
  rewrite Hheap2, Hheap1. cbn [heap].
  by rewrite !lookup_insert_eq.
Qed.

Lemma processCorrelatedEvents_run world key events environment st first :
  head (List.filter isCritical events) = Some first →
  ∃ impact report st',
    analyzeImpact (affectedService_of first) (currentSystemMap world)
      = Some impact
    ∧ processCorrelatedEvents world key events environment st
      = Some (Some report, st')
    ∧ report_correlationId report = or_string (correlationId first) "unknown"
    ∧ report_affectedServices report
      = affectedService_of first :: allDependents impact
    ∧ hypotheses_of st' report
      = Array_sort (by_confidence_desc (StringToNumber world))
          (hypotheses_generated (now world)
             (generator world
                (buildSystemContext first
                   (group_context world events environment) impact
                   (getRecentDiffs world (affectedService_of first))))).
Proof.
  intros Hfirst. unfold processCorrelatedEvents.
  destruct (List.filter isCritical events) as [| first' others];
    [done |]. injection Hfirst as ->.
  unfold bind at 1. unfold emit at 1. cbv beta iota.
  unfold bind at 1. unfold emit at 1. cbv beta iota.
  unfold bind at 1.
  match goal with |- context [analyzeEvent ?w ?e ?c ?s] =>
    destruct (analyzeEvent_run w e c s)
      as (impact & report & st1 & Himpact & -> & Hid & Hservices & Hhyps)
  end.
  cbv beta iota. unfold bind, emit, ret.
  exists impact. eexists _, _. split_and!; try done.
Qed.

(** ** The skip property *)

Lemma isCritical_false e :
  priority e ≠ Some high → level e ≠ Some error → level e ≠ Some critical →
  isCritical e = false.
Proof.
  intros Hp He Hc. unfold isCritical.
  by rewrite !bool_decide_eq_false_2.
Qed.

Lemma no_critical_events events :
  (∀ e, e ∈ events → isCritical e = false) →
  List.filter isCritical events = [].
Proof.
  induction events as [| e rest IH]; intros Hnone; simpl; [done |].
  rewrite (Hnone e) by apply list_elem_of_here.
  apply IH. intros e' He'. by apply Hnone, list_elem_of_further.
Qed.

(** C4. A correlation group none of whose events has priority high or level
    error or critical is skipped: the run logs NO_CRITICAL_EVENTS and does
    nothing else, so the system map is not fetched, impact analysis and the
    hypothesis generator are not called, the heap is untouched, and no
    report comes back. *)
Theorem C4_group_without_critical_event_is_skipped world key events
    environment st :
  (∀ e, e ∈ events →
        priority e ≠ Some high ∧ level e ≠ Some error
        ∧ level e ≠ Some critical) →
  processCorrelatedEvents world key events environment st
  = Some (None, {| heap := heap st;
                   trace := trace st ++ [Log info "NO_CRITICAL_EVENTS"] |}).
Proof.
  intros Hquiet. unfold processCorrelatedEvents.
  rewrite no_critical_events; [reflexivity |].
  intros e He. destruct (Hquiet e He) as (Hp & Herr & Hcrit).
  by apply isCritical_false.
Qed.

Lemma C4_group_without_critical_event_is_skipped_witness :
  (∀ e, e ∈ [event_in "A" info low; event_in "B" info low] →
        priority e ≠ Some high ∧ level e ≠ Some error
        ∧ level e ≠ Some critical)
  ∧ processCorrelatedEvents (world_with chain_ABC Raises) "tx-1"
      [event_in "A" info low; event_in "B" info low] None initial
    = Some (None, {| heap := heap initial;
                     trace := trace initial
                              ++ [Log info "NO_CRITICAL_EVENTS"] |}).
Proof.
  assert (Hquiet : ∀ e, e ∈ [event_in "A" info low; event_in "B" info low] →
                        priority e ≠ Some high ∧ level e ≠ Some error
                        ∧ level e ≠ Some critical).
  { intros e He. rewrite !elem_of_cons, elem_of_nil in He.
    destruct He as [-> | [-> | []]]; simpl; split_and!; discriminate. }
  split; [exact Hquiet |].
  exact (C4_group_without_critical_event_is_skipped
           (world_with chain_ABC Raises) "tx-1"
           [event_in "A" info low; event_in "B" info low] None initial Hquiet).
Defined.

(** ** The fallback *)

Lemma generator_fails_Throw now outcome :
  generator_fails now outcome ↔ generate_attempt now outcome = Throw.
Proof.
  split.
  - intros [| | result Hparse]; simpl; done.
  - destruct outcome as [| [| | result]]; simpl; try done.
    + constructor.
    + constructor.
    + by constructor.
Qed.

Lemma generator_fails_fallback now outcome :
  generator_fails now outcome →
  hypotheses_generated now outcome = getFallbackHypotheses now.
Proof.
  intros Hfail%generator_fails_Throw. unfold hypotheses_generated.
  by rewrite Hfail.
Qed.

Lemma call_outcome_Some world event context impact outcome :
  analyzeImpact (affectedService_of event) (systemMap context) = Some impact →
  call_outcome world event context = Some outcome →
  outcome = generator world
              (buildSystemContext event context impact
                 (getRecentDiffs world (affectedService_of event))).
Proof. unfold call_outcome. intros ->. simpl. by intros [= <-]. Qed.

Lemma processCorrelatedEvents_outcome world key events environment st first
    outcome :
  head (List.filter isCritical events) = Some first →
  call_outcome world first (group_context world events environment)
    = Some outcome →
  ∃ report st',
    processCorrelatedEvents world key events environment st
      = Some (Some report, st')
    ∧ hypotheses_of st' report
      = Array_sort (by_confidence_desc (StringToNumber world))
          (hypotheses_generated (now world) outcome).
Proof.
  intros Hfirst Hcall.
  destruct (processCorrelatedEvents_run world key events environment st first
              Hfirst)
    as (impact & report & st' & Himpact & Hrun & _ & _ & Hhyps).
  rewrite <- (call_outcome_Some world first
                (group_context world events environment) impact outcome
                Himpact Hcall) in Hhyps.
  by exists report, st'.
Qed.

(** C5. Whenever the generator call made for a group with a critical event
    fails (it raises or times out, or its reply cannot be parsed), the run
    still yields one report, and the hypotheses of that report are exactly
    the one fixed fallback hypothesis: title "Service Dependency Failure",
    the fixed description, confidence 60, one evidence item of type log
    with confidence 70, three fixed suggested actions and no related
    services. *)
Theorem C5_fallback_on_generator_failure world key events environment st
    first outcome :
  head (List.filter isCritical events) = Some first →
  call_outcome world first (group_context world events environment)
    = Some outcome →
  generator_fails (now world) outcome →
  ∃ report st',
    processCorrelatedEvents world key events environment st
      = Some (Some report, st')
    ∧ hypotheses_of st' report = getFallbackHypotheses (now world)
    ∧ ∃ h e action1 action2 action3,
        hypotheses_of st' report = [h]
        ∧ hyp_title h = JStr "Service Dependency Failure"
        ∧ hyp_description h
          = JStr "The failure appears to be related to a service dependency issue based on the error pattern."
        ∧ hyp_confidence h = JNum 60
        ∧ hyp_evidence h = [e]
        ∧ evidence_type e = JStr "log"
        ∧ evidence_confidence e = JNum 70
        ∧ hyp_suggestedActions h
          = JArr [JStr action1; JStr action2; JStr action3]
        ∧ hyp_relatedServices h = JArr [].
Proof.
  intros Hfirst Hcall Hfail.
  destruct (processCorrelatedEvents_outcome world key events environment st
              first outcome Hfirst Hcall)
    as (report & st' & Hrun & Hhyps).
  rewrite (generator_fails_fallback _ _ Hfail) in Hhyps.
  exists report, st'. split; [done |]. split; [done |].
  rewrite Hhyps. unfold getFallbackHypotheses. simpl.
  by eexists _, _, _, _, _.
Qed.

Lemma C5_fallback_on_generator_failure_witness :
  head (List.filter isCritical
          [event_in "B" info low; event_in "B" critical high])
    = Some (event_in "B" critical high)
  ∧ call_outcome (world_with chain_ABC Raises) (event_in "B" critical high)
      (group_context (world_with chain_ABC Raises)
         [event_in "B" info low; event_in "B" critical high] None)
    = Some Raises
  ∧ generator_fails 1700000000000 Raises
  ∧ ∃ report st',
      processCorrelatedEvents (world_with chain_ABC Raises) "tx-1"
        [event_in "B" info low; event_in "B" critical high] None initial
        = Some (Some report, st')
      ∧ hypotheses_of st' report = getFallbackHypotheses 1700000000000
      ∧ ∃ h e action1 action2 action3,
          hypotheses_of st' report = [h]
          ∧ hyp_title h = JStr "Service Dependency Failure"
          ∧ hyp_description h
            = JStr "The failure appears to be related to a service dependency issue based on the error pattern."
          ∧ hyp_confidence h = JNum 60
          ∧ hyp_evidence h = [e]
          ∧ evidence_type e = JStr "log"
          ∧ evidence_confidence e = JNum 70
          ∧ hyp_suggestedActions h
            = JArr [JStr action1; JStr action2; JStr action3]
          ∧ hyp_relatedServices h = JArr [].
Proof.
  split_and!; [reflexivity | vm_compute; reflexivity | constructor |].
  apply (C5_fallback_on_generator_failure (world_with chain_ABC Raises)
           "tx-1" [event_in "B" info low; event_in "B" critical high] None
           initial (event_in "B" critical high) Raises).
  - reflexivity.
  - vm_compute. reflexivity.
  - constructor.
Defined.

(** ** Replies without hypotheses *)







(** ** The ranking *)



(** The ranking of the sample reply, computed. *)
Example ranking_reply_titles :
  (λ hs, map hyp_title hs) <$>
    reported_hypotheses
      (processCorrelatedEvents (world_with chain_ABC ranking_reply) "tx-1"
         [event_in "B" critical high] None initial)
  = Some [JStr "Pool exhausted"; JStr "Slow upstream"; JStr "Bad deploy";
          JStr "Clock skew"; JStr "Cache miss storm"].
Proof. vm_compute. reflexivity. Qed.

(** ** Affected services *)




(** The affected services of the chain A -> B -> C for a failure in C. *)
Example chain_affected_services :
  reported_services
    (processCorrelatedEvents (world_with chain_ABC Raises) "tx-1"
       [event_in "C" critical high] None initial)
  = Some ["C"; "B"; "A"].
Proof. vm_compute. reflexivity. Qed.

(** ** Correlation ids *)

Lemma Map_push_new key event groups :
  ∃ group, (key, group) ∈ Map_push key event groups ∧ event ∈ group.
Proof.
  induction groups as [| [k g] rest (group & Hin & He)]; simpl.
  - exists [event]. split; apply list_elem_of_here.
  - destruct (decide (k = key)) as [-> |].
    + exists (g ++ [event]). split; [apply list_elem_of_here |].
      apply elem_of_app. right. apply list_elem_of_here.
    + exists group. split; [by apply list_elem_of_further | done].
Qed.

Lemma Map_push_old key event groups k e :
  (∃ group, (k, group) ∈ groups ∧ e ∈ group) →
  ∃ group, (k, group) ∈ Map_push key event groups ∧ e ∈ group.
Proof.
  intros (group & Hin & He).
  induction groups as [| [k' g] rest IH]; [by apply elem_of_nil in Hin |].
  simpl. apply elem_of_cons in Hin as [[= <- <-] | Hin].
  - destruct (decide (k = key)) as [-> |].
    + exists (group ++ [event]). split; [apply list_elem_of_here |].
      apply elem_of_app. by left.
    + exists group. split; [apply list_elem_of_here | done].
  - destruct (IH Hin) as (group' & Hin' & He').
    destruct (decide (k' = key)) as [-> |].
    + exists group. split; [by apply list_elem_of_further | done].
    + exists group'. split; [by apply list_elem_of_further | done].
Qed.

Lemma group_fold_elem events : ∀ groups e,
  e ∈ events ∨ (∃ group, (correlationKey e, group) ∈ groups ∧ e ∈ group) →
  ∃ group,
    (correlationKey e, group)
      ∈ foldl (λ groups event, Map_push (correlationKey event) event groups)
          groups events
    ∧ e ∈ group.
Proof.
  induction events as [| event rest IH]; intros groups e; simpl.
  - intros [Hin | Hold]; [by apply elem_of_nil in Hin | done].
  - intros [[-> | Hin]%elem_of_cons | Hold]; apply IH.
    + right. apply Map_push_new.
    + by left.
    + right. by apply Map_push_old.
Qed.

Lemma groupEvents_elem events e :
  e ∈ events →
  ∃ group, (correlationKey e, group) ∈ groupEvents events ∧ e ∈ group.
Proof. intros Hin. apply group_fold_elem. by left. Qed.

(** C9. An event without a correlation id (absent or empty) is grouped by
    the correlator under the key "uncorrelated", while the report that
    the analysis of this event returns carries the correlation id
    "unknown", a different string. *)
Theorem C9_unknown_versus_uncorrelated world event context st :
  correlationId event = None ∨ correlationId event = Some "" →
  correlationKey event = "uncorrelated"
  ∧ (∀ events, event ∈ events →
       ∃ group, ("uncorrelated", group) ∈ groupEvents events ∧ event ∈ group)
  ∧ ∃ report st',
      analyzeEvent world event context st = Some (Some report, st')
      ∧ report_correlationId report = "unknown"
      ∧ report_correlationId report ≠ correlationKey event.
Proof.
  intros Hid.
  assert (Hkey : correlationKey event = "uncorrelated").
  { unfold correlationKey. by destruct Hid as [-> | ->]. }
  split; [done |]. split.
  - intros events Hin. rewrite <- Hkey. by apply groupEvents_elem.
  - destruct (analyzeEvent_run world event context st)
      as (impact & report & st' & _ & Hrun & Hreport & _).
    exists report, st'. split; [done |].
    assert (Hunknown : report_correlationId report = "unknown").
    { rewrite Hreport. by destruct Hid as [-> | ->]. }
    split; [done |]. by rewrite Hunknown, Hkey.
Qed.

Lemma C9_unknown_versus_uncorrelated_witness :
  (correlationId (event_in "B" critical high) = None
   ∨ correlationId (event_in "B" critical high) = Some "")
  ∧ correlationKey (event_in "B" critical high) = "uncorrelated"
  ∧ (∀ events, event_in "B" critical high ∈ events →
       ∃ group, ("uncorrelated", group) ∈ groupEvents events
                ∧ event_in "B" critical high ∈ group)
  ∧ ∃ report st',
      analyzeEvent (world_with chain_ABC Raises) (event_in "B" critical high)
        (group_context (world_with chain_ABC Raises)
           [event_in "B" critical high] None) initial
      = Some (Some report, st')
      ∧ report_correlationId report = "unknown"
      ∧ report_correlationId report
        ≠ correlationKey (event_in "B" critical high).
Proof.
  split; [left; reflexivity |].
  apply (C9_unknown_versus_uncorrelated (world_with chain_ABC Raises)
           (event_in "B" critical high)
           (group_context (world_with chain_ABC Raises)
              [event_in "B" critical high] None) initial).
  left. reflexivity.
Defined.

(** ** Default confidence *)

Lemma or_json_falsy value fallback :
  falsy value → or_json value fallback = fallback.
Proof. destruct value as [j |]; simpl; [by intros -> | done]. Qed.

Lemma or_json_not_zero value fallback :
  fallback ≠ JNum 0 → or_json value fallback ≠ JNum 0.
Proof.
  intros Hfallback. destruct value as [j |]; simpl; [| done].
  destruct (truthy j) eqn:Htruthy; [| done].
  intros ->. discriminate.
Qed.

Lemma parse_evidence_confidence e index parsed :
  parse_evidence e index = Normal parsed →
  ∃ value, prop e "confidence" = Normal value
           ∧ evidence_confidence parsed = or_json value (JNum 50).
Proof.
  unfold parse_evidence. destruct e; simpl; try done;
    intros [= <-]; eexists; split; reflexivity.
Qed.

Lemma parse_hypothesis_confidence now h index parsed :
  parse_hypothesis now h index = Normal parsed →
  ∃ value evidence,
    prop h "confidence" = Normal value
    ∧ hyp_confidence parsed = or_json value (JNum 50)
    ∧ prop h "evidence" = Normal evidence
    ∧ or_empty_map parse_evidence evidence = Normal (hyp_evidence parsed).
Proof.
  unfold parse_hypothesis. destruct h; simpl; try done;
    try (intros [= <-]; eexists _, _; split_and!; reflexivity).
  destruct (or_empty_map parse_evidence (lookup_field fields "evidence"))
    as [evidence |] eqn:Hevidence; simpl; [| done].
  intros [= <-]. eexists _, _. split_and!; done.
Qed.

Lemma map_from_Forall {B} (callback : json → nat → completion B)
    (P : B → Prop) :
  (∀ item index b, callback item index = Normal b → P b) →
  ∀ items index bs, map_from callback index items = Normal bs → Forall P bs.
Proof.
  intros Hcallback. induction items as [| item rest IH]; intros index bs;
    simpl.
  - intros [= <-]. constructor.
  - destruct (callback item index) as [b |] eqn:Hb; simpl; [| done].
    destruct (map_from callback (S index) rest) as [bs' |] eqn:Hrest; simpl;
      [| done].
    intros [= <-]. constructor; eauto.
Qed.

Lemma or_empty_map_Forall {B} (callback : json → nat → completion B)
    (P : B → Prop) value bs :
  (∀ item index b, callback item index = Normal b → P b) →
  or_empty_map callback value = Normal bs → Forall P bs.
Proof.
  intros Hcallback. unfold or_empty_map.
  destruct (or_json value (JArr [])); try done.
  by apply map_from_Forall.
Qed.

(** C10. The parser of the generator's reply replaces every falsy
    confidence, the number 0 included, by 50, in hypotheses and in their
    evidence items alike; so no parsed hypothesis and no parsed evidence
    item carries the confidence 0. *)
Theorem C10_falsy_confidence_becomes_50 (now : Z) :
  (∀ h index parsed,
     parse_hypothesis now h index = Normal parsed →
     prop h "confidence" = Normal (Some (JNum 0)) →
     hyp_confidence parsed = JNum 50)
  ∧ (∀ h index parsed value,
       parse_hypothesis now h index = Normal parsed →
       prop h "confidence" = Normal value → falsy value →
       hyp_confidence parsed = JNum 50)
  ∧ (∀ e index parsed value,
       parse_evidence e index = Normal parsed →
       prop e "confidence" = Normal value → falsy value →
       evidence_confidence parsed = JNum 50)
  ∧ (∀ result hypotheses,
       parse_hypotheses now result = Normal hypotheses →
       Forall (λ h, hyp_confidence h ≠ JNum 0
                    ∧ Forall (λ e, evidence_confidence e ≠ JNum 0)
                        (hyp_evidence h))
              hypotheses).
Proof.
  assert (Hfalsy : ∀ h index parsed value,
            parse_hypothesis now h index = Normal parsed →
            prop h "confidence" = Normal value → falsy value →
            hyp_confidence parsed = JNum 50).
  { intros h index parsed value Hparse Hprop Hvalue.
    apply parse_hypothesis_confidence in Hparse
      as (value' & _ & Hprop' & -> & _).
    rewrite Hprop in Hprop'. injection Hprop' as <-.
    by apply or_json_falsy. }
  split_and!.
  - intros h index parsed Hparse Hprop. by eapply Hfalsy.
  - exact Hfalsy.
  - intros e index parsed value Hparse Hprop Hvalue.
    apply parse_evidence_confidence in Hparse as (value' & Hprop' & ->).
    rewrite Hprop in Hprop'. injection Hprop' as <-.
    by apply or_json_falsy.
  - intros result hypotheses. unfold parse_hypotheses.
    destruct (prop result "hypotheses") as [value |]; simpl; [| done].
    apply or_empty_map_Forall. intros item index parsed Hparse.
    apply parse_hypothesis_confidence in Hparse
      as (value' & evidence & _ & -> & _ & Hevidence).
    split; [by apply or_json_not_zero |].
    eapply or_empty_map_Forall; [| exact Hevidence].
    intros e i parsed_e (value_e & _ & ->)%parse_evidence_confidence.
    by apply or_json_not_zero.
Qed.

(** A reply whose only hypothesis has confidence 0, with one evidence item
    of confidence 0. *)
Example zero_confidence_parsed :
  (λ hs, map (λ h, (hyp_confidence h,
                    map evidence_confidence (hyp_evidence h))) hs) <$>
    reported_hypotheses
      (processCorrelatedEvents
         (world_with chain_ABC
            (reply_of [JObj [("title", JStr "Bad deploy");
                             ("confidence", JNum 0);
                             ("evidence",
                              JArr [JObj [("confidence", JNum 0)]])]]))
         "tx-1" [event_in "B" critical high] None initial)
  = Some [(JNum 50, [JNum 50])].
Proof. vm_compute. reflexivity. Qed.

(** ** Totality of the batch *)




(** One entry per group, with a report exactly for the groups that hold a
    critical event. *)
Lemma processCorrelatedEvents_report world key events environment st report
    st' :
  processCorrelatedEvents world key events environment st
    = Some (report, st') →
  is_Some report ↔ List.filter isCritical events ≠ [].
Proof.
  intros Hrun.
  destruct (head (List.filter isCritical events)) as [first |] eqn:Hfirst.
  - destruct (processCorrelatedEvents_run world key events environment st
                first Hfirst) as (_ & r & st1 & _ & Hrun' & _).
    rewrite Hrun' in Hrun. injection Hrun as <- <-.
    split; [| by eexists].
    intros _ Hnil. by rewrite Hnil in Hfirst.
  - unfold processCorrelatedEvents in Hrun.
    destruct (List.filter isCritical events); [| done].
    injection Hrun as <- <-. split; [by intros [? ?] | done].
Qed.

Lemma processGroups_reports world environment groups : ∀ st reports st',
  processGroups world groups environment st = Some (reports, st') →
  Forall2 (λ group entry,
             entry.1 = group.1
             ∧ (is_Some entry.2 ↔ List.filter isCritical group.2 ≠ []))
          groups reports.
Proof.
  induction groups as [| [key events] rest IH]; intros st reports st'; simpl.
  - intros [= <- <-]. constructor.
  - unfold bind at 1.
    destruct (processCorrelatedEvents world key events environment st)
      as [[report st1] |] eqn:Hgroup; [| done].
    unfold bind at 1.
    destruct (processGroups world rest environment st1)
      as [[reports' st2] |] eqn:Hrest; [| done].
    intros [= <- <-]. constructor; [| by eapply IH].
    split; [done |]. by eapply processCorrelatedEvents_report.
Qed.

Lemma processEvents_reports world events environment st reports st' :
  processEvents world events environment st = Some (reports, st') →
  Forall2 (λ group entry,
             entry.1 = group.1
             ∧ (is_Some entry.2 ↔ List.filter isCritical group.2 ≠ []))
          (groupEvents events) reports.
Proof.
  unfold processEvents, bind, emit. apply processGroups_reports.
Qed.

(** * Further properties *)

(** ** [findServiceDependencies] returns the transitive closure *)

Lemma lists_dependency_depends systemMap x y :
  lists_dependency systemMap x y → depends_directly systemMap x y.
Proof.
  intros (service & deps & Hlookup & Hdeps & Hy).
  exists service, deps. split_and!; [by apply lookup_service_elem | done | done].
Qed.

Lemma lookup_service_distinct entries name service :
  NoDup entries.*1 → (name, service) ∈ entries →
  lookup_service entries name = Some service.
Proof.
  induction entries as [| [key s] rest IH]; simpl.
  - by intros _ ?%elem_of_nil.
  - rewrite NoDup_cons. intros [Hkey Hrest] [[= -> ->] | Hin]%elem_of_cons.
    + by rewrite decide_True.
    + rewrite decide_False; [by apply IH |].
      intros ->. apply Hkey. apply list_elem_of_fmap. by exists (name, service).
Qed.

Lemma depends_lists_dependency systemMap x y :
  distinct_keys systemMap →
  depends_directly systemMap x y → lists_dependency systemMap x y.
Proof.
  intros Hkeys (service & deps & Hin & Hdeps & Hy).
  exists service, deps. split_and!; [by apply lookup_service_distinct | done | done].
Qed.

Lemma avoiding_antitone systemMap (small large : gset string) n y :
  small ⊆ large → avoiding systemMap large n y → avoiding systemMap small n y.
Proof.
  intros Hsub. induction 1 as [n y Hedge | n m y Hedge Hm _ IH].
  - by apply avoiding_edge.
  - eapply avoiding_step; [exact Hedge | set_solver | exact IH].
Qed.

(** Every chain ends with a stretch that avoids [visited] and starts either
    at the start of the chain or at its last node in [visited]. *)
Lemma chain_last_visited systemMap (visited : gset string) n y :
  tc (lists_dependency systemMap) n y →
  avoiding systemMap visited n y
  ∨ ∃ m, m ∈ visited ∧ avoiding systemMap visited m y.
Proof.
  induction 1 as [n y Hedge | n m y Hedge _ IH].
  - left. by apply avoiding_edge.
  - destruct IH as [Hrest | Hlater]; [| by right].
    destruct (decide (m ∈ visited)) as [Hm | Hm].
    + right. by exists m.
    + left. by eapply avoiding_step.
Qed.

Lemma avoiding_chain systemMap visited n y :
  avoiding systemMap visited n y → tc (lists_dependency systemMap) n y.
Proof.
  induction 1 as [n y Hedge | n m y Hedge _ _ IH].
  - by apply tc_once.
  - by eapply tc_l.
Qed.

Section push_transitive_complete.
Context (systemMap : SystemMap)
        (recur : string → gset string → option (list string * gset string)).
Hypothesis recur_complete : ∀ dep visited found visited',
  recur dep visited = Some (found, visited') →
  visited ⊆ visited' ∧ dep ∈ visited'
  ∧ ∀ n y, n ∈ visited' → n ∉ visited → avoiding systemMap visited' n y →
           y ∈ found.

Lemma push_transitive_complete deps : ∀ dependencies visited result visited',
  push_transitive recur deps dependencies visited = Some (result, visited') →
  visited ⊆ visited'
  ∧ (∀ dep, dep ∈ deps → dep ∈ visited')
  ∧ (∀ y, y ∈ dependencies → y ∈ result)
  ∧ ∀ n y, n ∈ visited' → n ∉ visited → avoiding systemMap visited' n y →
           y ∈ result.
Proof.
  induction deps as [| dep rest IH]; intros acc visited result visited'; simpl.
  - intros [= <- <-]. split_and!; [done | | done |].
    + by intros dep ?%elem_of_nil.
    + by intros n y Hin Hout.
  - destruct (recur dep visited) as [[found v1] |] eqn:Hdep; [| done].
    intros Hrest.
    destruct (recur_complete _ _ _ _ Hdep) as (Hsub1 & Hdep1 & Hfound).
    destruct (IH _ _ _ _ Hrest) as (Hsub2 & Hrest2 & Hacc & Hlater).
    split_and!.
    + set_solver.
    + intros d [-> | Hd]%elem_of_cons; [set_solver | by apply Hrest2].
    + intros y Hy. apply Hacc, elem_of_app. by left.
    + intros n y Hin Hout Hpath.
      destruct (decide (n ∈ v1)) as [Hn | Hn].
      * apply Hacc, elem_of_app. right.
        apply (Hfound n y Hn Hout).
        eapply avoiding_antitone; [exact Hsub2 | exact Hpath].
      * by apply (Hlater n y).
Qed.
End push_transitive_complete.

Lemma findServiceDependencies_from_complete systemMap fuel :
  ∀ serviceName visited found visited',
    findServiceDependencies_from fuel systemMap serviceName visited
      = Some (found, visited') →
    visited ⊆ visited' ∧ serviceName ∈ visited'
    ∧ ∀ n y, n ∈ visited' → n ∉ visited → avoiding systemMap visited' n y →
             y ∈ found.
Proof.
  induction fuel as [| fuel IH]; intros name visited found visited'; simpl;
    [done |].
  destruct (decide (name ∈ visited)) as [Hvisited | Hfresh].
  { intros [= <- <-]. split_and!; [done | done |]. by intros n y Hin Hout. }
  assert (Hdead : ∀ n y,
            (∀ z, ¬ lists_dependency systemMap name z) →
            n ∈ ({[name]} ∪ visited : gset string) → n ∉ visited →
            avoiding systemMap ({[name]} ∪ visited) n y →
            y ∈ ([] : list string)).
  { intros n y Hnone Hin Hout Hpath.
    assert (n = name) as -> by set_solver.
    inversion Hpath as [? ? Hedge | ? m ? Hedge]; subst; by apply Hnone in Hedge. }
  destruct (lookup_service (services systemMap) name) as [service |] eqn:Hsvc.
  2: { intros [= <- <-]. split_and!; [set_solver | set_solver |].
       intros n y. apply Hdead. intros z (s & d & Hs & _). congruence. }
  destruct (depends_on service) as [deps |] eqn:Hdeps.
  2: { intros [= <- <-]. split_and!; [set_solver | set_solver |].
       intros n y. apply Hdead. intros z (s & d & Hs & Hd & _). congruence. }
  destruct (push_transitive _ deps deps _) as [[result v1] |] eqn:Hpush;
    [| done].
  intros [= <- <-].
  destruct (push_transitive_complete systemMap _ IH _ _ _ _ _ Hpush)
    as (Hsub & Hall & Hacc & Hlater).
  split_and!; [set_solver | set_solver |].
  intros n y Hin Hout Hpath. apply Set_from_elem.
  destruct (decide (n = name)) as [-> | Hother].
  - inversion Hpath as [? ? Hedge | ? m ? Hedge Hm _]; subst.
    + destruct Hedge as (s & d & Hs & Hd & Hy).
      apply Hacc. congruence.
    + destruct Hedge as (s & d & Hs & Hd & Hy).
      exfalso. apply Hm, Hall. congruence.
  - apply (Hlater n y Hin); [set_solver | done].
Qed.

Lemma findServiceDependencies_complete systemMap serviceName found y :
  findServiceDependencies serviceName systemMap = Some found →
  tc (lists_dependency systemMap) serviceName y → y ∈ found.
Proof.
  unfold findServiceDependencies. intros Hfind Hchain.
  destruct (findServiceDependencies_from _ _ _ _) as [[f v] |] eqn:Hfrom;
    [| done].
  injection Hfind as <-.
  destruct (findServiceDependencies_from_complete _ _ _ _ _ _ Hfrom)
    as (_ & Hname & Hcomplete).
  destruct (chain_last_visited systemMap v _ _ Hchain) as [Hpath | (m & Hm & Hpath)].
  - by apply (Hcomplete serviceName y Hname).
  - by apply (Hcomplete m y Hm).
Qed.

Section push_transitive_reaches.
Context (systemMap : SystemMap) (root : string)
        (recur : string → gset string → option (list string * gset string)).
Hypothesis recur_reaches : ∀ dep visited found visited',
  recur dep visited = Some (found, visited') →
  ∀ y, y ∈ found → tc (lists_dependency systemMap) dep y.

Lemma push_transitive_reaches deps : ∀ dependencies visited result visited',
  push_transitive recur deps dependencies visited = Some (result, visited') →
  (∀ dep, dep ∈ deps → lists_dependency systemMap root dep) →
  (∀ y, y ∈ dependencies → tc (lists_dependency systemMap) root y) →
  ∀ y, y ∈ result → tc (lists_dependency systemMap) root y.
Proof.
  induction deps as [| dep rest IH]; intros acc visited result visited'; simpl.
  - intros [= <- <-] _ Hacc. exact Hacc.
  - destruct (recur dep visited) as [[found v1] |] eqn:Hdep; [| done].
    intros Hpush Hdeps Hacc. eapply IH; [exact Hpush | |].
    + intros d Hd. apply Hdeps. by apply list_elem_of_further.
    + intros y [Hy | Hy]%elem_of_app; [by apply Hacc |].
      eapply tc_l; [apply Hdeps, list_elem_of_here |].
      eapply recur_reaches; eauto.
Qed.
End push_transitive_reaches.

Lemma findServiceDependencies_from_reaches systemMap fuel :
  ∀ serviceName visited found visited',
    findServiceDependencies_from fuel systemMap serviceName visited
      = Some (found, visited') →
    ∀ y, y ∈ found → tc (lists_dependency systemMap) serviceName y.
Proof.
  induction fuel as [| fuel IH]; intros name visited found visited'; simpl;
    [done |].
  destruct (decide (name ∈ visited)).
  { intros [= <- <-] y Hy. by apply elem_of_nil in Hy. }
  destruct (lookup_service (services systemMap) name) as [service |] eqn:Hsvc;
    [| intros [= <- <-] y Hy; by apply elem_of_nil in Hy].
  destruct (depends_on service) as [deps |] eqn:Hdeps;
    [| intros [= <- <-] y Hy; by apply elem_of_nil in Hy].
  destruct (push_transitive _ deps deps _) as [[result v1] |] eqn:Hpush;
    [| done].
  intros [= <- <-] y Hy. rewrite Set_from_elem in Hy.
  assert (Hdirect : ∀ dep, dep ∈ deps → lists_dependency systemMap name dep).
  { intros dep Hdep. by exists service, deps. }
  refine (push_transitive_reaches systemMap name _ IH deps deps _ result v1
            Hpush Hdirect _ y Hy).
  intros z Hz. apply tc_once. auto.
Qed.

Lemma findServiceDependencies_reach systemMap serviceName found :
  findServiceDependencies serviceName systemMap = Some found →
  ∀ y, y ∈ found ↔ tc (lists_dependency systemMap) serviceName y.
Proof.
  intros Hfound y. split.
  - unfold findServiceDependencies in Hfound.
    destruct (findServiceDependencies_from _ _ _ _) as [[f v] |] eqn:Hfrom;
      [| done].
    injection Hfound as <-. by eapply findServiceDependencies_from_reaches.
  - by apply findServiceDependencies_complete.
Qed.

(** X1. On every system map, cyclic ones included, the computation of the
    dependencies of a service returns; the list it returns has no
    duplicates and holds exactly the services that the service reaches along
    one or more depends_on edges. *)
Theorem findServiceDependencies_closure systemMap serviceName :
  ∃ found,
    findServiceDependencies serviceName systemMap = Some found
    ∧ NoDup found
    ∧ ∀ y, y ∈ found ↔ tc (lists_dependency systemMap) serviceName y.
Proof.
  destruct (findServiceDependencies_total serviceName systemMap)
    as [found Hfound].
  exists found. split; [done |]. split.
  - unfold findServiceDependencies in Hfound.
    destruct (findServiceDependencies_from _ _ _ _) as [[f v] |] eqn:Hfrom;
      [| done].
    injection Hfound as <-. simpl in Hfrom.
    destruct (decide (serviceName ∈ (∅ : gset string))); [set_solver |].
    destruct (lookup_service (services systemMap) serviceName) as [service |];
      [| injection Hfrom as <- _; constructor].
    destruct (depends_on service) as [deps |];
      [| injection Hfrom as <- _; constructor].
    destruct (push_transitive _ deps deps _) as [[result v1] |]; [| done].
    injection Hfrom as <- _. apply Set_from_NoDup.
  - by apply findServiceDependencies_reach.
Qed.

(** ** [findDependents] and the closure of [analyzeImpact] *)



Lemma discover_fold_grows deps : ∀ allDependents queue allDependents' queue',
  foldl discover (allDependents, queue) deps = (allDependents', queue') →
  (∀ x, x ∈ allDependents → x ∈ allDependents')
  ∧ (∀ x, x ∈ queue → x ∈ queue')
  ∧ (∀ x, x ∈ deps → x ∈ allDependents')
  ∧ (∀ x, x ∈ allDependents' → x ∈ allDependents ∨ x ∈ queue').
Proof.
  induction deps as [| dep rest IH]; intros closure queue closure' queue';
    simpl.
  - intros [= <- <-]. split_and!; auto. by intros x ?%elem_of_nil.
  - destruct (decide (dep ∈ closure)) as [Hseen | Hnew]; intros Hfold;
      destruct (IH _ _ _ _ Hfold) as (Hall & Hqueue & Hdeps & Hsplit).
    + split_and!; auto.
      intros x [-> | Hx]%elem_of_cons; auto.
    + split_and!.
      * intros x Hx. apply Hall, elem_of_app. by left.
      * intros x Hx. apply Hqueue, elem_of_app. by left.
      * intros x [-> | Hx]%elem_of_cons; [| auto].
        apply Hall, elem_of_app. right. apply list_elem_of_here.
      * intros x Hx. destruct (Hsplit x Hx) as [Hold | Hq]; [| by right].
        apply elem_of_app in Hold as [Hold | ->%list_elem_of_singleton];
          [by left |].
        right. apply Hqueue, elem_of_app. right. apply list_elem_of_here.
Qed.

Lemma expand_dependents_closed systemMap :
  ∀ fuel allDependents queue result,
    expand_dependents fuel systemMap allDependents queue = Some result →
    closed_up_to systemMap allDependents queue →
    (∀ x, x ∈ allDependents → x ∈ result)
    ∧ ∀ y x, y ∈ result → depends_directly systemMap x y → x ∈ result.
Proof.
  induction fuel as [| fuel IH]; intros closure queue result;
    (destruct queue as [| current queue]; simpl;
     [intros [= <-] Hinv; split; [done |];
      intros y x Hy Hxy; destruct (Hinv y Hy) as [?%elem_of_nil | Hclosed];
      [done | by apply Hclosed] |]);
    [done |].
  destruct (foldl discover (closure, queue) (findDependents current systemMap))
    as [closure' queue'] eqn:Hfold.
  intros Hexp Hinv.
  destruct (discover_fold_grows _ _ _ _ _ Hfold)
    as (Hall & Hqueue & Hdeps & Hsplit).
  destruct (IH _ _ _ Hexp) as [Hkept Hclosed].
  - intros y Hy. destruct (Hsplit y Hy) as [Hold | Hq]; [| by left].
    destruct (Hinv y Hold) as [[-> | Hq]%elem_of_cons | Hdone].
    + right. intros x Hx. by apply Hdeps, findDependents_elem.
    + left. by apply Hqueue.
    + right. intros x Hx. by apply Hall, Hdone.
  - split; [| done]. intros x Hx. by apply Hkept, Hall.
Qed.

Lemma allDependents_complete affectedService systemMap impact x :
  analyzeImpact affectedService systemMap = Some impact →
  depends_transitively systemMap x affectedService →
  x ∈ allDependents impact.
Proof.
  intros (_ & _ & Hexp)%analyzeImpact_Some Hchain.
  destruct (expand_dependents_closed _ _ _ _ _ Hexp) as [Hkept Hclosed].
  { intros y Hy. left. by apply Set_from_elem. }
  induction Hchain as [x s Hedge | x y s Hedge _ IH].
  - by apply Hkept, Set_from_elem, findDependents_elem.
  - apply (Hclosed y x); [| done]. by apply IH.
Qed.

(** X3. The blast radius computed by the impact analysis has no duplicates
    and holds exactly the services that reach the affected service along
    one or more depends_on edges; every direct dependent is part of it. *)
Theorem allDependents_closure affectedService systemMap :
  ∃ impact,
    analyzeImpact affectedService systemMap = Some impact
    ∧ NoDup (allDependents impact)
    ∧ (∀ x, x ∈ allDependents impact
            ↔ depends_transitively systemMap x affectedService)
    ∧ (∀ x, x ∈ directDependents impact → x ∈ allDependents impact).
Proof.
  destruct (analyzeImpact_total affectedService systemMap)
    as [impact Himpact].
  exists impact. split_and!; [done | by eapply allDependents_NoDup | |].
  - intros x. split; [by eapply allDependents_sound |].
    by apply allDependents_complete.
  - intros x Hx. apply (allDependents_complete _ _ _ _ Himpact).
    apply tc_once, findDependents_elem.
    by destruct (analyzeImpact_Some _ _ _ Himpact) as (<- & _).
Qed.

Lemma chains_agree systemMap x y :
  distinct_keys systemMap →
  tc (lists_dependency systemMap) x y ↔ depends_transitively systemMap x y.
Proof.
  intros Hkeys. unfold depends_transitively. split.
  - induction 1 as [? ? Hedge | ? ? ? Hedge _ IH].
    + by apply tc_once, lists_dependency_depends.
    + eapply tc_l; [by apply lists_dependency_depends | done].
  - induction 1 as [? ? Hedge | ? ? ? Hedge _ IH].
    + by apply tc_once, depends_lists_dependency.
    + eapply tc_l; [by apply depends_lists_dependency | done].
Qed.

(** X4. Dependencies and blast radius are converse to each other: on a
    system map with distinct keys, a service [y] is among the dependencies
    of [s] exactly when [s] is among the transitive dependents of [y]. *)
Theorem dependencies_dependents_converse systemMap s y :
  distinct_keys systemMap →
  ∃ found impact,
    findServiceDependencies s systemMap = Some found
    ∧ analyzeImpact y systemMap = Some impact
    ∧ (y ∈ found ↔ s ∈ allDependents impact).
Proof.
  intros Hkeys.
  destruct (findServiceDependencies_total s systemMap) as [found Hfound].
  destruct (analyzeImpact_total y systemMap) as [impact Himpact].
  exists found, impact. split_and!; [done | done |].
  rewrite (findServiceDependencies_reach _ _ _ Hfound), chains_agree by done.
  split; [by apply allDependents_complete | by eapply allDependents_sound].
Qed.

Lemma dependencies_dependents_converse_witness :
  distinct_keys chain_ABC
  ∧ ∃ found impact,
      findServiceDependencies "A" chain_ABC = Some found
      ∧ analyzeImpact "C" chain_ABC = Some impact
      ∧ ("C" ∈ found ↔ "A" ∈ allDependents impact).
Proof.
  assert (Hkeys : distinct_keys chain_ABC).
  { unfold distinct_keys. simpl. repeat constructor;
      rewrite ?elem_of_cons, ?elem_of_nil; intuition discriminate. }
  split; [exact Hkeys |].
  exact (dependencies_dependents_converse chain_ABC "A" "C" Hkeys).
Defined.

(** ** The correlator *)

Lemma Set_add_cons_ne key k keys :
  key ≠ k → Set_add key (k :: keys) = k :: Set_add key keys.
Proof.
  intros Hne. unfold Set_add.
  destruct (decide (key ∈ keys)) as [Hin | Hout].
  - rewrite decide_True; [done | by apply list_elem_of_further].
  - rewrite decide_False; [done |].
    intros [? | ?]%elem_of_cons; [congruence | done].
Qed.

Lemma filter_same_key_snoc key seen event :
  List.filter (same_key key) (seen ++ [event])
  = List.filter (same_key key) seen
    ++ (if decide (correlationKey event = key) then [event] else []).
Proof.
  rewrite List.filter_app. f_equal. simpl. unfold same_key.
  destruct (decide (correlationKey event = key)).
  - by rewrite bool_decide_eq_true_2.
  - by rewrite bool_decide_eq_false_2.
Qed.

Lemma Map_push_closed_form (keys : list string) seen event :
  NoDup keys →
  (correlationKey event ∉ keys →
   List.filter (same_key (correlationKey event)) seen = []) →
  Map_push (correlationKey event) event (map (events_with_key seen) keys)
  = map (events_with_key (seen ++ [event]))
        (Set_add (correlationKey event) keys).
Proof.
  induction keys as [| k keys IH]; intros Hnodup Hfresh.
  - simpl. unfold events_with_key. rewrite filter_same_key_snoc.
    rewrite decide_True by done.
    rewrite Hfresh by apply not_elem_of_nil. done.
  - apply NoDup_cons in Hnodup as [Hk Hnodup]. simpl.
    destruct (decide (k = correlationKey event)) as [-> | Hne].
    + unfold Set_add. rewrite decide_True by apply list_elem_of_here.
      simpl. unfold events_with_key at 2. rewrite filter_same_key_snoc.
      rewrite decide_True by done. f_equal.
      apply map_ext_in. intros k' Hk'%list_elem_of_In.
      unfold events_with_key. rewrite filter_same_key_snoc.
      rewrite decide_False; [by rewrite app_nil_r |].
      intros <-. done.
    + rewrite Set_add_cons_ne by done. simpl. f_equal.
      * unfold events_with_key. rewrite filter_same_key_snoc.
        rewrite decide_False by done. by rewrite app_nil_r.
      * apply IH; [done |]. intros Hout. apply Hfresh.
        intros [? | ?]%elem_of_cons; [congruence | done].
Qed.

Lemma group_fold_closed_form events : ∀ (keys : list string) seen,
  NoDup keys →
  (∀ key, key ∉ keys → List.filter (same_key key) seen = []) →
  foldl (λ groups event, Map_push (correlationKey event) event groups)
        (map (events_with_key seen) keys) events
  = map (events_with_key (seen ++ events))
        (foldl (λ s x, Set_add x s) keys (map correlationKey events)).
Proof.
  induction events as [| event rest IH]; intros keys seen Hnodup Hfresh; simpl.
  - by rewrite app_nil_r.
  - rewrite Map_push_closed_form by auto.
    rewrite IH.
    + by rewrite <- app_assoc.
    + by apply Set_add_NoDup.
    + intros key Hout. rewrite filter_same_key_snoc.
      rewrite Set_add_elem in Hout.
      rewrite decide_False by (intros Heq; apply Hout; by left).
      rewrite app_nil_r. apply Hfresh. intros Hin. apply Hout. by right.
Qed.

Lemma events_with_key_keys events (keys : list string) :
  (map (events_with_key events) keys).*1 = keys.
Proof.
  induction keys as [| k keys IH]; [done |].
  change ((events_with_key events k).1
          :: (map (events_with_key events) keys).*1 = k :: keys).
  by rewrite IH.
Qed.

(** X5. The correlator splits a batch into one group per correlation key:
    the groups come in the order in which their keys first appear, their
    keys are distinct, and each group holds exactly the events of the batch
    with its key, in arrival order, and is not empty. *)
Theorem groupEvents_by_key events :
  groupEvents events
  = map (events_with_key events) (Set_from (map correlationKey events))
  ∧ NoDup (groupEvents events).*1
  ∧ ∀ key group, (key, group) ∈ groupEvents events → group ≠ [].
Proof.
  assert (Hform : groupEvents events
            = map (events_with_key events)
                  (Set_from (map correlationKey events))).
  { unfold groupEvents, Set_from.
    apply (group_fold_closed_form events [] []); [constructor | done]. }
  split; [exact Hform |]. rewrite Hform. split.
  - rewrite events_with_key_keys. apply Set_from_NoDup.
  - intros key group (k & [= -> ->] & Hk)%list_elem_of_fmap.
    apply Set_from_elem, list_elem_of_fmap in Hk as (e & -> & He).
    intros Hempty.
    assert (Hin : e ∈ List.filter (same_key (correlationKey e)) events).
    { apply list_elem_of_In, List.filter_In. split; [by apply list_elem_of_In |].
      unfold same_key. by apply bool_decide_eq_true_2. }
    rewrite Hempty in Hin. by apply elem_of_nil in Hin.
Qed.

(** ** The effects of a run *)








(** ** The batch *)









(** ** What the parser accepts *)

Lemma parse_evidence_Throw e index :
  parse_evidence e index = Throw ↔ is_null e = true.
Proof. unfold parse_evidence. by destruct e. Qed.

Lemma map_from_evidence index items :
  map_from parse_evidence index items = Throw
  ↔ forallb (λ e, negb (is_null e)) items = false.
Proof.
  revert index. induction items as [| e rest IH]; intros index; simpl;
    [done |].
  destruct (parse_evidence e index) as [parsed |] eqn:He; simpl.
  - assert (Hnull : is_null e = false).
    { destruct (is_null e) eqn:Hn; [| done].
      apply (proj2 (parse_evidence_Throw e index)) in Hn. congruence. }
    rewrite Hnull. simpl. rewrite <- (IH (S index)).
    by destruct (map_from parse_evidence (S index) rest).
  - apply (proj1 (parse_evidence_Throw e index)) in He. by rewrite He.
Qed.

Lemma or_empty_map_evidence value :
  or_empty_map parse_evidence value = Throw ↔ evidence_usable value = false.
Proof.
  unfold or_empty_map, evidence_usable.
  destruct (or_json value (JArr [])); try done. apply map_from_evidence.
Qed.

Lemma parse_hypothesis_Throw now h index :
  parse_hypothesis now h index = Throw ↔ hypothesis_usable h = false.
Proof.
  unfold parse_hypothesis. destruct h; simpl; try done.
  rewrite <- or_empty_map_evidence.
  by destruct (or_empty_map parse_evidence (lookup_field fields "evidence")).
Qed.

Lemma map_from_hypotheses now index items :
  map_from (parse_hypothesis now) index items = Throw
  ↔ forallb hypothesis_usable items = false.
Proof.
  revert index. induction items as [| h rest IH]; intros index; simpl;
    [done |].
  destruct (parse_hypothesis now h index) as [parsed |] eqn:Hh; simpl.
  - assert (Husable : hypothesis_usable h = true).
    { destruct (hypothesis_usable h) eqn:Hu; [done |].
      apply (proj2 (parse_hypothesis_Throw now h index)) in Hu. congruence. }
    rewrite Husable. simpl. rewrite <- (IH (S index)).
    by destruct (map_from (parse_hypothesis now) (S index) rest).
  - apply (proj1 (parse_hypothesis_Throw now h index)) in Hh. by rewrite Hh.
Qed.

Lemma map_from_lookup {B} (callback : json → nat → completion B) items :
  ∀ index bs,
    map_from callback index items = Normal bs →
    length bs = length items
    ∧ ∀ i b, bs !! i = Some b →
             ∃ item, items !! i = Some item
                     ∧ callback item (index + i) = Normal b.
Proof.
  induction items as [| item rest IH]; intros index bs; simpl.
  - intros [= <-]. split; [done |]. by intros i b ?.
  - destruct (callback item index) as [b0 |] eqn:Hb; simpl; [| done].
    destruct (map_from callback (S index) rest) as [bs' |] eqn:Hrest; simpl;
      [| done].
    intros [= <-]. destruct (IH _ _ Hrest) as [Hlen Hitems].
    split; [simpl; by rewrite Hlen |].
    intros [| i] b; simpl.
    + intros [= <-]. exists item. by rewrite Nat.add_0_r.
    + intros Hi. destruct (Hitems i b Hi) as (item' & Hitem & Hcall).
      exists item'. split; [done |].
      by replace (index + S i) with (S index + i) by lia.
Qed.

Lemma parse_hypothesis_id now h index parsed :
  parse_hypothesis now h index = Normal parsed →
  hyp_id parsed = hypothesis_id now index.
Proof.
  unfold parse_hypothesis. destruct h; simpl; try done;
    try (by intros [= <-]).
  destruct (or_empty_map parse_evidence (lookup_field fields "evidence"));
    simpl; [| done].
  by intros [= <-].
Qed.

Lemma hypothesis_id_inj now i j :
  hypothesis_id now i = hypothesis_id now j → i = j.
Proof.
  unfold hypothesis_id. intros Heq.
  do 3 apply String.app_inj in Heq. by apply pretty_nat_inj in Heq.
Qed.

(** X9. When the parser accepts a reply, it returns one hypothesis per
    entry of the reply's list, in the order of the list, each read from its
    own entry, and the identifiers it hands out within the report are
    pairwise distinct. *)
Theorem parse_hypotheses_in_order now result hypotheses :
  parse_hypotheses now result = Normal hypotheses →
  ∃ value items,
    prop result "hypotheses" = Normal value
    ∧ or_json value (JArr []) = JArr items
    ∧ length hypotheses = length items
    ∧ (∀ i h, hypotheses !! i = Some h →
              ∃ item, items !! i = Some item
                      ∧ parse_hypothesis now item i = Normal h)
    ∧ NoDup (hyp_id <$> hypotheses).
Proof.
  unfold parse_hypotheses, or_empty_map.
  destruct (prop result "hypotheses") as [value |]; simpl; [| done].
  destruct (or_json value (JArr [])) as [| | | | items |] eqn:Hvalue;
    try done.
  intros Hmap. destruct (map_from_lookup _ _ _ _ Hmap) as [Hlen Hitems].
  exists value, items. split_and!; try done.
  apply NoDup_alt. intros i j id Hi Hj.
  apply list_lookup_fmap_Some in Hi as (hi & -> & Hi).
  apply list_lookup_fmap_Some in Hj as (hj & Hid & Hj).
  destruct (Hitems i hi Hi) as (item_i & _ & Hpi).
  destruct (Hitems j hj Hj) as (item_j & _ & Hpj).
  apply parse_hypothesis_id in Hpi, Hpj. simpl in Hpi, Hpj.
  rewrite Hpi, Hpj in Hid. by apply hypothesis_id_inj in Hid.
Qed.

Lemma parse_hypotheses_in_order_witness :
  parse_hypotheses 1700000000000 two_entry_result = Normal two_entry_parsed
  ∧ ∃ value items,
      prop two_entry_result "hypotheses" = Normal value
      ∧ or_json value (JArr []) = JArr items
      ∧ length two_entry_parsed = length items
      ∧ (∀ i h, two_entry_parsed !! i = Some h →
                ∃ item, items !! i = Some item
                        ∧ parse_hypothesis 1700000000000 item i = Normal h)
      ∧ NoDup (hyp_id <$> two_entry_parsed).
Proof.
  assert (Hparse : parse_hypotheses 1700000000000 two_entry_result
                   = Normal two_entry_parsed) by (vm_compute; reflexivity).
  split; [exact Hparse |].
  exact (parse_hypotheses_in_order 1700000000000 two_entry_result
           two_entry_parsed Hparse).
Defined.

(** X10. The parser takes a reply whole or not at all. An entry that is
    null, or whose evidence is neither falsy nor an array without null
    entries, makes the whole reply fail, and the fallback hypothesis
    replaces also the well-formed entries; a number or a string in the
    place of a hypothesis is read as a hypothesis made of defaults. When
    every entry is usable the report has as many hypotheses as the reply. *)
Theorem reply_taken_whole_or_not_at_all now items :
  (generator_fails now (reply_of items)
   ↔ forallb hypothesis_usable items = false)
  ∧ (forallb hypothesis_usable items = false →
     hypotheses_generated now (reply_of items) = getFallbackHypotheses now)
  ∧ (forallb hypothesis_usable items = true →
     length (hypotheses_generated now (reply_of items)) = length items).
Proof.
  assert (Hfails : generator_fails now (reply_of items)
                   ↔ forallb hypothesis_usable items = false).
  { rewrite generator_fails_Throw. unfold reply_of. simpl.
    unfold parse_hypotheses, or_empty_map. simpl.
    apply map_from_hypotheses. }
  split; [exact Hfails |]. split.
  - intros Hbad. by apply generator_fails_fallback, Hfails.
  - intros Hgood. unfold hypotheses_generated, reply_of. simpl.
    unfold parse_hypotheses, or_empty_map. simpl.
    destruct (map_from (parse_hypothesis now) 0 items) as [hs |] eqn:Hmap.
    + by destruct (map_from_lookup _ _ _ _ Hmap) as [-> _].
    + apply (proj1 (map_from_hypotheses now 0 items)) in Hmap. congruence.
Qed.

(** ** The API-key check *)

(** X11. The API-key check lets a request through exactly when its key is
    not empty and equals the internal or the external key; the request is
    internal exactly when the key is the internal one, and every other
    request is answered with status 401. When INTERNAL_API_KEY is unset or
    empty, the built-in key internal-dev-key is accepted as internal. *)
Theorem authMiddleware_lets_through env :
  (∀ header apiKey isInternal,
     authMiddleware env header = Next apiKey isInternal
     ↔ header = Some apiKey ∧ apiKey ≠ ""
       ∧ (apiKey = internal_key env ∨ apiKey = external_key env)
       ∧ isInternal = bool_decide (apiKey = internal_key env))
  ∧ (∀ header status message logged,
       authMiddleware env header = Denied status message logged →
       status = 401)
  ∧ (INTERNAL_API_KEY env = None ∨ INTERNAL_API_KEY env = Some "" →
     authMiddleware env (Some "internal-dev-key")
     = Next "internal-dev-key" true).
Proof.
  split_and!.
  - intros header apiKey isInternal. unfold authMiddleware.
    destruct header as [given |]; [| split; [done | by intros [? _]]].
    destruct (bool_decide_reflect (given = "")) as [-> | Hgiven].
    { split; [done | intros ([= <-] & ? & _); done]. }
    destruct (bool_decide_reflect (given ∈ [internal_key env; external_key env]))
      as [Hin | Hout].
    + split.
      * intros [= <- <-]. split_and!; try done.
        rewrite !elem_of_cons, elem_of_nil in Hin. tauto.
      * by intros ([= <-] & _ & _ & ->).
    + split; [done |]. intros ([= <-] & _ & Hvalid & _). exfalso.
      apply Hout. rewrite !elem_of_cons. tauto.
  - intros header status message logged. unfold authMiddleware.
    destruct header as [given |]; [| by intros [= <- _ _]].
    destruct (bool_decide (given = "")); [by intros [= <- _ _] |].
    destruct (bool_decide _); [done | by intros [= <- _ _]].
  - intros Hunset. unfold authMiddleware, internal_key.
    by destruct Hunset as [-> | ->].
Qed.

(** ** Events of the DebugQueue library *)

Lemma isCritical_enrich c now_iso event :
  isCritical (enrich c now_iso event) = isCritical event.
Proof. done. Qed.

(** X12. Events built by [error] and [critical] always pass the critical
    filter of the event processor, also after the client has completed
    them; events built by [warn] and [info] pass it exactly when the
    caller asks for priority high. *)
Theorem DebugQueue_events_and_the_filter c now_iso now random type fields
    options err :
  isCritical (enrich c now_iso
                (DebugQueue_error now random type err fields options)) = true
  ∧ isCritical (enrich c now_iso
                  (DebugQueue_critical now random type fields options)) = true
  ∧ isCritical (enrich c now_iso
                  (DebugQueue_warn now random type fields options))
    = bool_decide (options_priority options = Some high)
  ∧ isCritical (enrich c now_iso
                  (DebugQueue_info now random type fields options))
    = bool_decide (options_priority options = Some high).
Proof.
  rewrite !isCritical_enrich. unfold isCritical. simpl.
  split_and!; [by rewrite orb_true_r | done | |];
    destruct (options_priority options) as [[] |]; done.
Qed.

Lemma generateCorrelationId_not_empty now random :
  generateCorrelationId now random ≠ "".
Proof.
  unfold generateCorrelationId.
  destruct (pretty now) as [| a s]; unfold String.append; discriminate.
Qed.

Lemma or_string_not_empty value fallback :
  fallback ≠ "" → or_string value fallback ≠ "".
Proof.
  intros Hfallback. unfold or_string. destruct value as [s |]; [| done].
  by destruct (bool_decide_reflect (s = "")).
Qed.

Lemma or_string_given s fallback : s ≠ "" → or_string (Some s) fallback = s.
Proof. intros Hs. unfold or_string. by rewrite bool_decide_eq_false_2. Qed.

(** X13. Every event built by the DebugQueue library carries a correlation
    id that is not empty, the caller's or a generated one. Such an event is
    grouped under its own id, and the report of its analysis carries that
    same id. *)
Theorem DebugQueue_events_are_correlated world context st c now_iso now random
    type fields options :
  ∃ id report st',
    correlationId
      (enrich c now_iso (DebugQueue_log now random type fields options))
      = Some id
    ∧ id ≠ ""
    ∧ correlationKey
        (enrich c now_iso (DebugQueue_log now random type fields options))
      = id
    ∧ analyzeEvent world
        (enrich c now_iso (DebugQueue_log now random type fields options))
        context st
      = Some (Some report, st')
    ∧ report_correlationId report = id.
Proof.
  set (event := enrich c now_iso (DebugQueue_log now random type fields options)).
  set (id := or_string (options_correlationId options)
               (generateCorrelationId now random)).
  assert (Hid : id ≠ "")
    by apply or_string_not_empty, generateCorrelationId_not_empty.
  destruct (analyzeEvent_run world event context st)
    as (impact & report & st' & _ & Hrun & Hreport & _).
  exists id, report, st'. split_and!; try done.
  - unfold correlationKey. simpl. by apply or_string_given.
  - rewrite Hreport. simpl. by apply or_string_given.
Qed.

(** ** The queue of the client *)

Lemma flush_keeps_events c post st :
  delivered (flush c post st) ++ queue (flush c post st)
  = delivered st ++ queue st.
Proof.
  unfold flush. destruct (queue st) as [| e rest] eqn:Hqueue.
  - by rewrite Hqueue.
  - unfold flush_begin, flush_end.
    destruct post; unfold delivered; simpl; rewrite flat_map_app; simpl;
      rewrite ?app_nil_r; by rewrite Hqueue.
Qed.

Lemma step_keeps_events c st op :
  enabled c = true →
  delivered (step c st op) ++ queue (step c st op)
  = delivered st ++ queue st ++ sent_events c [op].
Proof.
  intros Henabled. unfold sent_events.
  destruct op as [event now_iso post | post | post]; simpl.
  - unfold send. rewrite Henabled. simpl.
    destruct (batchSize c <=? _)%Z; by rewrite ?flush_keeps_events.
  - by rewrite flush_keeps_events, app_nil_r.
  - unfold tick. destruct (0 <? length (queue st))%nat;
      by rewrite ?flush_keeps_events, app_nil_r.
Qed.

Lemma sent_events_cons c op ops :
  sent_events c (op :: ops) = sent_events c [op] ++ sent_events c ops.
Proof. unfold sent_events. simpl. by rewrite app_nil_r. Qed.

Lemma run_keeps_events c ops : ∀ st,
  enabled c = true →
  delivered (foldl (step c) st ops) ++ queue (foldl (step c) st ops)
  = delivered st ++ queue st ++ sent_events c ops.
Proof.
  induction ops as [| op ops IH]; intros st Henabled; cbn [foldl].
  - unfold sent_events. simpl. by rewrite !app_nil_r.
  - rewrite IH by done. rewrite sent_events_cons.
    rewrite app_assoc, step_keeps_events by done.
    by rewrite <- !app_assoc.
Qed.


(** A flush that runs to its end is a flush that begins and whose request
    settles before anything else happens. *)
Lemma flush_begin_then_settle c post st :
  settle 0 post (begin_flush c {| client := st; pending := [] |})
  = {| client := flush c post st; pending := [] |}.
Proof.
  unfold begin_flush, flush, settle. simpl.
  destruct (queue st) as [| e rest] eqn:Hqueue; simpl; [done |].
  unfold flush_begin, flush_end. simpl. by destruct post.
Qed.

(** X14. When the calls of an enabled client run one after the other,
    whatever the server answers, no event is lost, repeated or moved: the
    events of the requests that the server took, followed by the queue,
    are the events sent so far, in the order of sending. *)
Theorem client_keeps_every_event c ops :
  enabled c = true →
  delivered (run_client c ops) ++ queue (run_client c ops)
  = sent_events c ops.
Proof.
  intros Henabled. unfold run_client. by rewrite run_keeps_events.
Qed.

Lemma client_keeps_every_event_witness :
  enabled sample_client = true
  ∧ delivered (run_client sample_client sample_operations)
    ++ queue (run_client sample_client sample_operations)
    = sent_events sample_client sample_operations.
Proof.
  split; [reflexivity |].
  apply (client_keeps_every_event sample_client sample_operations).
  reflexivity.
Defined.







(** ** Calls of the client that overlap *)

Lemma begin_flush_keeps_events c st :
  in_flight (begin_flush c st) ++ queue (client (begin_flush c st))
  = in_flight st ++ queue (client st)
  ∧ posts (client (begin_flush c st)) = posts (client st).
Proof.
  unfold begin_flush. destruct (queue (client st)) as [| e rest] eqn:Hqueue.
  - by rewrite Hqueue.
  - unfold in_flight. simpl. rewrite flat_map_app. simpl.
    by rewrite !app_nil_r.
Qed.

Lemma in_flight_lookup requests n request :
  requests !! n = Some request →
  flat_map request_events requests
  ≡ₚ request_events request ++ flat_map request_events (delete n requests).
Proof.
  revert n. induction requests as [| r requests IH]; intros [| n] Hn;
    simpl in *; try done.
  - by injection Hn as ->.
  - rewrite (IH n Hn). rewrite !app_assoc. f_equiv. apply Permutation_app_comm.
Qed.

Lemma settle_keeps_events n outcome st :
  delivered (client (settle n outcome st)) ++ in_flight (settle n outcome st)
  ++ queue (client (settle n outcome st))
  ≡ₚ delivered (client st) ++ in_flight st ++ queue (client st).
Proof.
  unfold settle. destruct (pending st !! n) as [request |] eqn:Hn; [| done].
  unfold in_flight at 2. rewrite (in_flight_lookup _ _ _ Hn).
  unfold in_flight, delivered, flush_end.
  destruct outcome; simpl; rewrite flat_map_app; simpl; rewrite ?app_nil_r.
  - by rewrite <- !app_assoc.
  - f_equiv. rewrite !app_assoc. f_equiv. apply Permutation_app_comm.
  - f_equiv. rewrite !app_assoc. f_equiv. apply Permutation_app_comm.
Qed.

Lemma act_keeps_events c st a :
  enabled c = true →
  delivered (client (act c st a)) ++ in_flight (act c st a)
  ++ queue (client (act c st a))
  ≡ₚ (delivered (client st) ++ in_flight st ++ queue (client st))
     ++ sent_by c [a].
Proof.
  intros Henabled. unfold sent_by.
  assert (Hbegin : ∀ st',
            delivered (client (begin_flush c st')) ++ in_flight (begin_flush c st')
            ++ queue (client (begin_flush c st'))
            = delivered (client st') ++ in_flight st' ++ queue (client st')).
  { intros st'. destruct (begin_flush_keeps_events c st') as [-> Hposts].
    unfold delivered. by rewrite Hposts. }
  destruct a as [event now_iso | | | n outcome]; simpl.
  - rewrite Henabled. simpl.
    destruct (batchSize c <=? _)%Z; rewrite ?Hbegin; simpl;
      unfold in_flight; simpl; by rewrite <- !app_assoc.
  - by rewrite Hbegin, app_nil_r.
  - destruct (0 <? _)%nat; by rewrite ?Hbegin, app_nil_r.
  - by rewrite settle_keeps_events, app_nil_r.
Qed.

Lemma sent_by_cons c a schedule :
  sent_by c (a :: schedule) = sent_by c [a] ++ sent_by c schedule.
Proof. unfold sent_by. simpl. by rewrite app_nil_r. Qed.

(** X16. However the calls of an enabled client, the ticks of its timer
    and the answers of the server overlap, no event is lost and none is
    repeated: the events that the server took, the events of the requests
    that have not settled and the queue hold together exactly the events
    sent so far. *)
Theorem overlapping_calls_keep_every_event c schedule :
  enabled c = true →
  delivered (client (run_schedule c schedule))
  ++ in_flight (run_schedule c schedule)
  ++ queue (client (run_schedule c schedule))
  ≡ₚ sent_by c schedule.
Proof.
  intros Henabled. unfold run_schedule.
  assert (Hgeneral : ∀ st,
            delivered (client (foldl (act c) st schedule))
            ++ in_flight (foldl (act c) st schedule)
            ++ queue (client (foldl (act c) st schedule))
            ≡ₚ (delivered (client st) ++ in_flight st ++ queue (client st))
               ++ sent_by c schedule).
  { induction schedule as [| a schedule IH]; intros st; cbn [foldl].
    - unfold sent_by. simpl. by rewrite app_nil_r.
    - rewrite IH, sent_by_cons, act_keeps_events by done.
      by rewrite <- !app_assoc. }
  by rewrite Hgeneral.
Qed.

Lemma overlapping_calls_keep_every_event_witness :
  enabled sample_client = true
  ∧ delivered (client (run_schedule sample_client sample_schedule))
    ++ in_flight (run_schedule sample_client sample_schedule)
    ++ queue (client (run_schedule sample_client sample_schedule))
    ≡ₚ sent_by sample_client sample_schedule.
Proof.
  split; [reflexivity |].
  apply (overlapping_calls_keep_every_event sample_client sample_schedule).
  reflexivity.
Defined.

(** ** The configuration of the client and what the server sees of it *)

Lemma or_string_unset value fallback :
  unset value → or_string value fallback = fallback.
Proof. by intros [-> | ->]. Qed.

Lemma or_number_not_zero value fallback :
  fallback ≠ 0%Z → or_number value fallback ≠ 0%Z.
Proof.
  intros Hfallback. unfold or_number. destruct value as [n |]; [| done].
  destruct (Z.eqb_spec n 0); done.
Qed.

(** X17. The configuration that the client stores has no empty endpoint,
    service or environment and no batch size or flush interval of zero: a
    zero that the caller gives is replaced by 10 or 5000 as an absent value
    is. Hence the timer of an enabled client runs unless the caller gives a
    negative flush interval. Without a key in the configuration and in
    TRACEPULSE_API_KEY the key is empty, and a client whose configuration
    does not say whether it is enabled is disabled exactly when NODE_ENV
    is test. *)
Theorem resolve_config_defaults config env :
  endpoint (resolve_config config env) ≠ ""
  ∧ client_service (resolve_config config env) ≠ ""
  ∧ client_environment (resolve_config config env) ≠ ""
  ∧ batchSize (resolve_config config env) ≠ 0%Z
  ∧ flushInterval (resolve_config config env) ≠ 0%Z
  ∧ (timer_started (resolve_config config env) = false
     ↔ enabled (resolve_config config env) = false
       ∨ ∃ n, config_flushInterval config = Some n ∧ (n < 0)%Z)
  ∧ (unset (config_apiKey config) → unset (TRACEPULSE_API_KEY env) →
     apiKey (resolve_config config env) = "")
  ∧ (config_enabled config = None →
     (enabled (resolve_config config env) = false
      ↔ NODE_ENV env = Some "test")).
Proof.
  split_and!; simpl.
  - by do 2 apply or_string_not_empty.
  - by do 2 apply or_string_not_empty.
  - by do 2 apply or_string_not_empty.
  - by apply or_number_not_zero.
  - by apply or_number_not_zero.
  - unfold timer_started. simpl. rewrite andb_false_iff, Z.ltb_ge.
    unfold or_number.
    destruct (config_flushInterval config) as [n |].
    + destruct (Z.eqb_spec n 0) as [-> | Hn].
      * split; [intros [? | ?]; [by left | lia] |].
        intros [? | (n & [= <-] & ?)]; [by left | lia].
      * split; [intros [? | ?]; [by left | right; exists n; split; [done | lia]] |].
        intros [? | (n' & [= <-] & ?)]; [by left | right; lia].
    + split; [intros [? | ?]; [by left | lia] |].
      intros [? | (n & ? & _)]; [by left | done].
  - intros Hconfig Henv. by rewrite !or_string_unset.
  - intros ->. rewrite negb_false_iff. apply bool_decide_eq_true.
Qed.

Lemma begin_flush_requests c st :
  Forall (λ request, request_events request ≠ []
                     ∧ request = request_of c (request_events request))
    (requests st) →
  Forall (λ request, request_events request ≠ []
                     ∧ request = request_of c (request_events request))
    (requests (begin_flush c st)).
Proof.
  intros Hrequests. unfold begin_flush.
  destruct (queue (client st)) as [| e rest] eqn:Hqueue; [done |].
  unfold requests in *. simpl. rewrite app_assoc.
  apply Forall_app. split; [done |]. by apply Forall_singleton.
Qed.

Lemma settle_requests n outcome st :
  requests (settle n outcome st) ≡ₚ requests st.
Proof.
  unfold settle. destruct (pending st !! n) as [request |] eqn:Hn; [| done].
  unfold requests.
  assert (Hposts : ∀ st' events,
            posts (flush_end outcome events st') = posts st')
    by (intros; by destruct outcome).
  simpl. rewrite Hposts. simpl. rewrite fmap_app. simpl.
  rewrite <- app_assoc. f_equiv. simpl.
  rewrite (delete_Permutation (pending st) n request) at 2 by done. done.
Qed.

Lemma act_requests c st a :
  Forall (λ request, request_events request ≠ []
                     ∧ request = request_of c (request_events request))
    (requests st) →
  Forall (λ request, request_events request ≠ []
                     ∧ request = request_of c (request_events request))
    (requests (act c st a)).
Proof.
  intros Hrequests. destruct a as [event now_iso | | | n outcome]; simpl.
  - destruct (negb (enabled c)); [done |].
    destruct (batchSize c <=? _)%Z; [| done].
    by apply begin_flush_requests.
  - by apply begin_flush_requests.
  - destruct (0 <? _)%nat; [| done]. by apply begin_flush_requests.
  - by rewrite settle_requests.
Qed.

Lemma run_schedule_requests c schedule :
  Forall (λ request, request_events request ≠ []
                     ∧ request = request_of c (request_events request))
    (requests (run_schedule c schedule)).
Proof.
  unfold run_schedule.
  assert (Hgeneral : ∀ st,
            Forall (λ request,
                      request_events request ≠ []
                      ∧ request = request_of c (request_events request))
              (requests st) →
            Forall (λ request,
                      request_events request ≠ []
                      ∧ request = request_of c (request_events request))
              (requests (foldl (act c) st schedule))).
  { induction schedule as [| a schedule IH]; intros st Hst; simpl; [done |].
    by apply IH, act_requests. }
  by apply Hgeneral.
Qed.

(** X18. Every request that the client makes, whatever the schedule,
    carries at least one event and the endpoint, the key and the
    environment of the configuration. When that key is empty (the default),
    the API-key check of the server answers every such request with 401,
    Missing API key, whatever keys the server accepts. *)
Theorem client_requests_and_the_key_check c env schedule request :
  request ∈ requests (run_schedule c schedule) →
  request_events request ≠ []
  ∧ request = request_of c (request_events request)
  ∧ (apiKey c = "" →
     authMiddleware env (Some (request_apiKey request))
     = Denied 401 "Missing API key" "AUTH_MISSING_API_KEY").
Proof.
  intros Hrequest.
  destruct (proj1 (Forall_forall _ _) (run_schedule_requests c schedule)
              request Hrequest) as [Hevents Hshape].
  split_and!; [done | done |].
  intros Hkey. rewrite Hshape. simpl. by rewrite Hkey.
Qed.

Lemma client_requests_and_the_key_check_witness :
  request_of sample_client
    [enrich sample_client "2024-01-01T00:00:00.000Z"
       (sample_event "PAYMENT_FAILED")]
  ∈ requests (run_schedule sample_client sample_schedule)
  ∧ request_events
      (request_of sample_client
         [enrich sample_client "2024-01-01T00:00:00.000Z"
            (sample_event "PAYMENT_FAILED")]) ≠ [].
Proof.
  assert (Hrequest :
            request_of sample_client
              [enrich sample_client "2024-01-01T00:00:00.000Z"
                 (sample_event "PAYMENT_FAILED")]
            ∈ requests (run_schedule sample_client sample_schedule)).
  { vm_compute. apply list_elem_of_further, list_elem_of_here. }
  split; [exact Hrequest |].
  exact (proj1 (client_requests_and_the_key_check sample_client
                  {| INTERNAL_API_KEY := None; EXTERNAL_API_KEY := None |}
                  sample_schedule _ Hrequest)).
Defined.

Lemma disabled_act c st a :
  enabled c = false → queue (client st) = [] → pending st = [] →
  act c st a = st.
Proof.
  intros Hdisabled Hqueue Hpending.
  destruct a as [event now_iso | | | n outcome]; simpl.
  - by rewrite Hdisabled.
  - unfold begin_flush. by rewrite Hqueue.
  - by rewrite Hqueue.
  - unfold settle. by rewrite Hpending.
Qed.

(** X19. A client that is not enabled never queues an event, never makes a
    request and starts no timer, whatever is called on it. *)
Theorem disabled_client_is_inert c schedule :
  enabled c = false →
  run_schedule c schedule
  = {| client := {| queue := []; posts := [] |}; pending := [] |}
  ∧ timer_started c = false.
Proof.
  intros Hdisabled. split.
  - unfold run_schedule. induction schedule as [| a schedule IH]; simpl;
      [done |].
    by rewrite disabled_act.
  - unfold timer_started. by rewrite Hdisabled.
Qed.

Lemma disabled_client_is_inert_witness :
  enabled test_client = false
  ∧ run_schedule test_client sample_schedule
    = {| client := {| queue := []; posts := [] |}; pending := [] |}
  ∧ timer_started test_client = false.
Proof.
  split; [reflexivity |].
  apply (disabled_client_is_inert test_client sample_schedule).
  reflexivity.
Defined.

Lemma sent_by_enriched c schedule event :
  event ∈ sent_by c schedule →
  ∃ original now_iso, event = enrich c now_iso original.
Proof.
  unfold sent_by. rewrite list_elem_of_In, in_flat_map.
  intros (a & _ & Hevent). destruct a as [original now_iso | | |];
    simpl in Hevent; try done.
  destruct Hevent as [<- | []]. by exists original, now_iso.
Qed.

(** X20. Every event that goes through the client names its service: the
    service of the event or, when that is absent or empty, the service of
    the configuration, which is never empty. The analysis on the server
    therefore takes this name as the affected service; for such an event
    it never falls back on details.service or on Unknown. *)
Theorem client_events_name_their_service config env schedule event :
  event ∈ sent_by (resolve_config config env) schedule →
  ∃ name, service event = Some name
          ∧ name ≠ ""
          ∧ affectedService_of event = name
          ∧ timestamp event ≠ None.
Proof.
  intros (original & now_iso & ->)%sent_by_enriched.
  set (c := resolve_config config env).
  assert (Hname : or_string (service original) (client_service c) ≠ "").
  { apply or_string_not_empty. unfold c. simpl.
    by do 2 apply or_string_not_empty. }
  exists (or_string (service original) (client_service c)).
  split_and!; try done.
  unfold affectedService_of. simpl. by apply or_string_given.
Qed.

Lemma client_events_name_their_service_witness :
  enrich sample_client "2024-01-01T00:00:00.000Z"
    (sample_event "PAYMENT_FAILED")
  ∈ sent_by sample_client sample_schedule
  ∧ ∃ name, service (enrich sample_client "2024-01-01T00:00:00.000Z"
                       (sample_event "PAYMENT_FAILED")) = Some name
            ∧ name ≠ ""
            ∧ affectedService_of
                (enrich sample_client "2024-01-01T00:00:00.000Z"
                   (sample_event "PAYMENT_FAILED")) = name
            ∧ timestamp (enrich sample_client "2024-01-01T00:00:00.000Z"
                           (sample_event "PAYMENT_FAILED")) ≠ None.
Proof.
  assert (Hsent :
            enrich sample_client "2024-01-01T00:00:00.000Z"
              (sample_event "PAYMENT_FAILED")
            ∈ sent_by sample_client sample_schedule)
    by apply list_elem_of_here.
  split; [exact Hsent |].
  exact (client_events_name_their_service sample_config no_variables
           sample_schedule _ Hsent).
Defined.

(** ** The critical events of the log store *)

Lemma Map_set_new_fold events : ∀ unique,
  foldl Map_set_new unique events
  = unique ++ ((λ e, (entry_key e, e)) <$> first_entries unique.*1 events).
Proof.
  induction events as [| event events IH]; intros unique; simpl.
  - by rewrite app_nil_r.
  - rewrite IH. unfold Map_set_new.
    destruct (decide (entry_key event ∈ unique.*1)); [done |].
    rewrite fmap_app. simpl. by rewrite <- app_assoc.
Qed.

Lemma detectCriticalEvents_first_entries start queryLogs :
  detectCriticalEvents start queryLogs
  = first_entries [] (collected start queryLogs).
Proof.
  unfold detectCriticalEvents. fold (collected start queryLogs).
  rewrite Map_set_new_fold. simpl.
  rewrite <- list_fmap_compose. apply list_fmap_id.
Qed.

Lemma first_entries_sublist events : ∀ seen,
  sublist (first_entries seen events) events.
Proof.
  induction events as [| event events IH]; intros seen; simpl; [done |].
  destruct (decide _); [apply sublist_cons | apply sublist_skip]; apply IH.
Qed.

Lemma first_entries_new events : ∀ seen event,
  event ∈ first_entries seen events → entry_key event ∉ seen.
Proof.
  induction events as [| e events IH]; intros seen event; simpl.
  - by intros ?%elem_of_nil.
  - destruct (decide (entry_key e ∈ seen)) as [Hseen | Hnew]; [apply IH |].
    intros [-> | Hlater]%elem_of_cons; [done |].
    apply IH in Hlater. rewrite elem_of_app in Hlater. tauto.
Qed.

Lemma first_entries_NoDup events : ∀ seen,
  NoDup (entry_key <$> first_entries seen events).
Proof.
  induction events as [| e events IH]; intros seen; simpl; [constructor |].
  destruct (decide (entry_key e ∈ seen)) as [Hseen | Hnew]; [apply IH |].
  simpl. constructor; [| apply IH].
  intros (e' & Hkey & He')%list_elem_of_fmap.
  apply first_entries_new in He'. apply He'.
  rewrite elem_of_app, list_elem_of_singleton. by right.
Qed.

Lemma first_entries_first events : ∀ seen event,
  event ∈ events → entry_key event ∉ seen →
  ∃ first, first_with_key events event = Some first
           ∧ first ∈ first_entries seen events.
Proof.
  unfold first_with_key.
  induction events as [| e events IH]; intros seen event; simpl.
  - by intros ?%elem_of_nil.
  - intros Hevent Hnew.
    destruct (bool_decide_reflect (entry_key e = entry_key event))
      as [Hsame | Hother].
    + exists e. split; [done |].
      rewrite decide_False by (by rewrite Hsame). apply elem_of_cons. by left.
    + apply elem_of_cons in Hevent as [-> | Hevent]; [done |].
      destruct (decide (entry_key e ∈ seen)) as [Hseen | Hfresh].
      * by apply IH.
      * destruct (IH (seen ++ [entry_key e]) event Hevent)
          as (first & Hfirst & Hin).
        { rewrite elem_of_app, list_elem_of_singleton. naive_solver. }
        exists first. split; [done |]. apply elem_of_cons. by right.
Qed.

Lemma first_entries_are_first events : ∀ seen event,
  event ∈ first_entries seen events →
  first_with_key events event = Some event.
Proof.
  unfold first_with_key.
  induction events as [| e events IH]; intros seen event; simpl.
  - by intros ?%elem_of_nil.
  - destruct (decide (entry_key e ∈ seen)) as [Hseen | Hfresh].
    + intros Hevent.
      rewrite bool_decide_eq_false_2; [by eapply IH |].
      apply first_entries_new in Hevent. intros Hsame. apply Hevent.
      by rewrite <- Hsame.
    + intros [-> | Hevent]%elem_of_cons.
      * by rewrite bool_decide_eq_true_2.
      * rewrite bool_decide_eq_false_2; [by eapply IH |].
        apply first_entries_new in Hevent. intros Hsame. apply Hevent.
        rewrite elem_of_app, list_elem_of_singleton. by right.
Qed.

(** X21. The critical events that the Grafana client reports are the
    collected events without those whose key (timestamp, a dash, line) an
    earlier collected event has: the result keeps the order of collection,
    holds no two events with the same key, holds of every key the first
    collected event, and for every collected event that first one. *)
Theorem detectCriticalEvents_keeps_first_of_each_key start queryLogs :
  sublist (detectCriticalEvents start queryLogs) (collected start queryLogs)
  ∧ NoDup (entry_key <$> detectCriticalEvents start queryLogs)
  ∧ (∀ event, event ∈ detectCriticalEvents start queryLogs →
       first_with_key (collected start queryLogs) event = Some event)
  ∧ (∀ event, event ∈ collected start queryLogs →
       ∃ first, first_with_key (collected start queryLogs) event = Some first
                ∧ first ∈ detectCriticalEvents start queryLogs).
Proof.
  rewrite detectCriticalEvents_first_entries. split_and!.
  - apply first_entries_sublist.
  - apply first_entries_NoDup.
  - apply first_entries_are_first.
  - intros event Hevent. apply first_entries_first; [done |].
    by intros ?%elem_of_nil.
Qed.
